(** * tunnel-rpc: the [run] method and its helpers

    A shallow embedding of [src/tunnel_rpc/methods.py]:

    - [parse_output], the parser of the container's combined log, with the
      Python string methods it calls ([str.replace], [str.split]) and the one
      regular expression it matches each line against;
    - [eval_commands], [retrieve_archive_base64] and [run], which drive the
      Docker API client; every call on the client is an event of a trace,
      threaded through a small state-and-exception monad;
    - [fnmatch] and [os.path.join] (POSIX), which [retrieve_archive_base64]
      uses to select the members of the archive.

    A Python [str] is a list of characters, here those of [ascii]: the
    source compares the characters of its texts with ASCII delimiters only
    (brackets, dashes, the space, the slash, line feed and carriage
    return).  A character of [ascii] stands for the code point of its
    number, so the texts modelled are those whose code points are below 256;
    on them one character of a name is what a question mark or a bracket
    expression of [fnmatch] matches. *)

From Stdlib Require Import Ascii String Bool Arith Lia List.
Import ListNotations.

Local Open Scope char_scope.
Local Open Scope list_scope.

(** ** Strings *)

Definition str := list ascii.
Definition bytes := list ascii.

(** A literal of the source. *)
Definition lit (s : string) : str := list_ascii_of_string s.

Definition LF : ascii := "010".
Definition CR : ascii := "013".

Fixpoint str_eqb (a b : str) : bool :=
  match a, b with
  | [], [] => true
  | x :: a', y :: b' => Ascii.eqb x y && str_eqb a' b'
  | _, _ => false
  end.

(** [s.startswith(p)] *)
Fixpoint startswith (p s : str) : bool :=
  match p, s with
  | [], _ => true
  | x :: p', y :: s' => Ascii.eqb x y && startswith p' s'
  | _ :: _, [] => false
  end.

(** [s.endswith(p)] *)
Definition endswith (p s : str) : bool := startswith (rev p) (rev s).

(** [s.replace(old, new)]: the occurrences of [old] are found from the left
    and do not overlap.  [skip] counts the characters of an occurrence still
    to be passed over. *)
Fixpoint replace_go (old new : str) (skip : nat) (s : str) : str :=
  match s with
  | [] => []
  | c :: s' =>
      match skip with
      | S k => replace_go old new k s'
      | O =>
          if startswith old s
          then new ++ replace_go old new (length old - 1) s'
          else c :: replace_go old new 0 s'
      end
  end.

Definition replace (old new s : str) : str :=
  match old with
  | [] => new ++ flat_map (fun c => c :: new) s
  | _ :: _ => replace_go old new 0 s
  end.

(** Puts a character in front of the piece being read. *)
Definition push (c : ascii) (pieces : list str) : list str :=
  match pieces with
  | cur :: rest => (c :: cur) :: rest
  | [] => [[c]]
  end.

(** [s.split(sep)] for a separator that is not empty (Python raises
    [ValueError] on an empty one; both calls of the source pass a literal):
    the pieces between the occurrences of [sep], found from the left and not
    overlapping.  There is always one piece more than there are
    occurrences. *)
Fixpoint split_go (sep : str) (skip : nat) (s : str) : list str :=
  match s with
  | [] => [[]]
  | c :: s' =>
      match skip with
      | S k => split_go sep k s'
      | O =>
          if startswith sep s
          then [] :: split_go sep (length sep - 1) s'
          else push c (split_go sep 0 s')
      end
  end.

Definition split (sep s : str) : list str := split_go sep 0 s.

(** [sep.join(pieces)] *)
Fixpoint join (sep : str) (pieces : list str) : str :=
  match pieces with
  | [] => []
  | [p] => p
  | p :: rest => p ++ sep ++ join sep rest
  end.

(** ** [parse_output] *)

(** The divider the runner image prints between the outputs of two commands. *)
Definition divider : str := lit "---" ++ [LF].

(** [[^\]]*\]]: the tag runs up to the first closing bracket. *)
Fixpoint until_bracket (s : str) : option (str * str) :=
  match s with
  | [] => None
  | c :: s' =>
      if Ascii.eqb c "]" then Some ([], s')
      else match until_bracket s' with
           | Some (key, r) => Some (c :: key, r)
           | None => None
           end
  end.

(** The second group and the end anchor, written ".*" and "$": a dot is any
    character but a line feed, and the anchor stands at the end of the string
    or before a line feed that ends it. *)
Fixpoint rest_of_line (s : str) : option str :=
  match s with
  | [] => Some []
  | c :: s' =>
      if Ascii.eqb c LF
      then match s' with [] => Some [] | _ :: _ => None end
      else option_map (cons c) (rest_of_line s')
  end.

(** [re.match(pattern, line)]: [None], or the two groups.  The pattern is an
    opening bracket, the first group (any characters but a closing bracket), a
    closing bracket, one space, the second group and the end anchor. *)
Definition re_match (line : str) : option (str * str) :=
  match line with
  | c :: s =>
      if Ascii.eqb c "[" then
        match until_bracket s with
        | Some (key, sp :: r) =>
            if Ascii.eqb sp " " then
              match rest_of_line r with
              | Some value => Some (key, value)
              | None => None
              end
            else None
        | _ => None
        end
      else None
  | [] => None
  end.

(** A [defaultdict(list)], and the [dict] made of it: the keys in the order
    of their first insertion, each with the list of its values. *)
Definition command := list (str * list str).

(** [command[key].append(value)] *)
Fixpoint append_value (key value : str) (c : command) : command :=
  match c with
  | [] => [(key, [value])]
  | (k, vs) :: rest =>
      if str_eqb k key then (k, vs ++ [value]) :: rest
      else (k, vs) :: append_value key value rest
  end.

(** The body of the loop over the lines of one block. *)
Definition add_line (c : command) (line : str) : command :=
  match re_match line with
  | Some (key, value) => append_value key value c
  | None => c
  end.

(** The record of one block: the loop over [command_text.split("\n")]. *)
Definition command_of (command_text : str) : command :=
  fold_left add_line (split [LF] command_text) [].

(** [any(command)]: iterating a dictionary gives its keys, and a string is
    true when it is not empty. *)
Definition any (c : command) : bool :=
  existsb (fun kv => negb (str_eqb (fst kv) [])) c.

(** The blocks the outer loop runs over. *)
Definition blocks (output : str) : list str :=
  split divider (replace [CR; LF] [LF] output).

(** The body of the outer loop. *)
Definition add_block (commands : list command) (command_text : str)
  : list command :=
  let c := command_of command_text in
  if any c then commands ++ [c] else commands.

Definition parse_output (output : str) : list command :=
  fold_left add_block (blocks output) [].

(** ** [fnmatch] and [os.path.join]

    The container runs Linux and the paths of the source are POSIX paths, so
    [os.path] is [posixpath]: [normcase] is the identity and [fnmatch]
    compares characters as they are. *)

(** [os.path.join(a, b)] *)
Definition path_join (a b : str) : str :=
  if startswith ["/"] b then b
  else if orb (str_eqb a []) (endswith ["/"] a) then a ++ b
  else a ++ "/" :: b.

(** One item of a bracket expression: a character or a range. *)
Inductive class_item :=
| CChar (c : ascii)
| CRange (lo hi : ascii).

(** What [fnmatch.translate] makes of a pattern, piece by piece. *)
Inductive glob :=
| GStar
| GAny
| GClass (negated : bool) (items : list class_item)
| GLit (c : ascii).

(** A piece of the set that [translate] writes for a bracket expression: a
    character (escaped where [re] would read it otherwise), or the hyphen
    of a range. *)
Inductive set_token :=
| SChar (c : ascii)
| SHyphen.

Definition token_char (t : set_token) : ascii :=
  match t with
  | SChar c => c
  | SHyphen => "-"
  end.

(** The chunks of a bracket expression, cut at the hyphens that make a
    range: [translate] looks for the first such hyphen from the second
    character (the third after [!]), and for the next one from the third
    character after a hyphen found.  [skip] counts the characters that are
    not looked at. *)
Fixpoint chunks_go (skip : nat) (s : str) : list str :=
  match s with
  | [] => [[]]
  | c :: s' =>
      match skip with
      | S k => push c (chunks_go k s')
      | O =>
          if Ascii.eqb c "-" then [] :: chunks_go 2 s'
          else push c (chunks_go 0 s')
      end
  end.

(** When nothing follows the last hyphen found, the hyphen goes to the end
    of the chunk before it. *)
Fixpoint close_chunks (chunks : list str) : list str :=
  match chunks with
  | [] => []
  | c :: rest =>
      match rest with
      | [[]] => [c ++ ["-"]]
      | _ => c :: close_chunks rest
      end
  end.

Definition ascii_ltb (a b : ascii) : bool :=
  Nat.ltb (nat_of_ascii a) (nat_of_ascii b).

(** The removal of the empty ranges, from the last pair of chunks to the
    first: where the end of a chunk is above the start of the next, both
    characters go and the two chunks become one. *)
Fixpoint drop_empty_ranges (chunks : list str) : list str :=
  match chunks with
  | [] => []
  | c :: rest =>
      match drop_empty_ranges rest with
      | [] => [c]
      | d :: more =>
          match rev c, d with
          | lo :: c_rev, hi :: d' =>
              if ascii_ltb hi lo then (rev c_rev ++ d') :: more
              else c :: d :: more
          | _, _ => c :: d :: more
          end
      end
  end.

(** The chunks joined again by the hyphens of the ranges; the hyphens within
    a chunk are escaped, and so are characters. *)
Fixpoint set_tokens (chunks : list str) : list set_token :=
  match chunks with
  | [] => []
  | c :: rest =>
      match rest with
      | [] => map SChar c
      | _ :: _ => map SChar c ++ SHyphen :: set_tokens rest
      end
  end.

(** The set [translate] writes for the text of a bracket expression. *)
Definition bracket_set (stuff : str) : list set_token :=
  if existsb (Ascii.eqb "-") stuff then
    let k := match stuff with
             | c :: _ => if Ascii.eqb c "!" then 2 else 1
             | [] => 1
             end in
    set_tokens (drop_empty_ranges (close_chunks (chunks_go k stuff)))
  else map SChar stuff.

(** The items of a set, as [re] reads them: a character followed by the
    hyphen of a range and by one more character is a range. *)
Fixpoint class_items_go (skip : nat) (ts : list set_token) : list class_item :=
  match ts with
  | [] => []
  | t :: ts' =>
      match skip with
      | S k => class_items_go k ts'
      | O =>
          match ts' with
          | SHyphen :: that :: _ =>
              CRange (token_char t) (token_char that) :: class_items_go 2 ts'
          | _ => CChar (token_char t) :: class_items_go 0 ts'
          end
      end
  end.

Definition class_items (ts : list set_token) : list class_item :=
  class_items_go 0 ts.

(** The text of a bracket expression that starts here (after the opening
    bracket), up to the bracket that closes it: a closing bracket that comes
    first, or first after [!], is one of its characters. [None] when no
    bracket closes it. *)
Definition bracket (s : str) : option str :=
  let lead :=
    match s with
    | c :: d :: _ =>
        if Ascii.eqb c "!" then (if Ascii.eqb d "]" then 2 else 1)
        else if Ascii.eqb c "]" then 1 else 0
    | [c] => if orb (Ascii.eqb c "!") (Ascii.eqb c "]") then 1 else 0
    | [] => 0
    end in
  match until_bracket (skipn lead s) with
  | Some (stuff, _) => Some (firstn lead s ++ stuff)
  | None => None
  end.

(** [fnmatch.translate], as CPython 3.11 has it: [skip] counts the
    characters of a bracket expression still to be passed over.  A set left
    empty by the removal of its ranges matches no character, and one left
    with [!] alone matches any. *)
Fixpoint translate_go (skip : nat) (pat : str) : list glob :=
  match pat with
  | [] => []
  | c :: rest =>
      match skip with
      | S k => translate_go k rest
      | O =>
          if Ascii.eqb c "*" then GStar :: translate_go 0 rest
          else if Ascii.eqb c "?" then GAny :: translate_go 0 rest
          else if Ascii.eqb c "[" then
            match bracket rest with
            | None => GLit "[" :: translate_go 0 rest
            | Some stuff =>
                match bracket_set stuff with
                | SChar b :: set' =>
                    if Ascii.eqb b "!"
                    then GClass true (class_items set')
                           :: translate_go (S (length stuff)) rest
                    else GClass false (class_items (SChar b :: set'))
                           :: translate_go (S (length stuff)) rest
                | set => GClass false (class_items set)
                           :: translate_go (S (length stuff)) rest
                end
            end
          else GLit c :: translate_go 0 rest
      end
  end.

Definition translate (pat : str) : list glob := translate_go 0 pat.

Definition ascii_leb (a b : ascii) : bool :=
  Nat.leb (nat_of_ascii a) (nat_of_ascii b).

Definition in_item (c : ascii) (i : class_item) : bool :=
  match i with
  | CChar d => Ascii.eqb c d
  | CRange lo hi => ascii_leb lo c && ascii_leb c hi
  end.

(** The match of a whole name against the translated pattern (the regular
    expression ends with the end-of-string anchor).  The name of a member
    is a [str] ([tarfile] decodes it), as the pattern is: a question mark
    or a bracket expression takes one character of it, that is one code
    point, never one byte of an encoding. *)
Fixpoint glob_match (g : list glob) (name : str) : bool :=
  match g with
  | [] => match name with [] => true | _ :: _ => false end
  | GStar :: g' =>
      (fix star (s : str) : bool :=
         glob_match g' s ||
         match s with
         | [] => false
         | _ :: s' => star s'
         end) name
  | GAny :: g' =>
      match name with
      | [] => false
      | _ :: s' => glob_match g' s'
      end
  | GClass negated items :: g' =>
      match name with
      | [] => false
      | c :: s' => xorb negated (existsb (in_item c) items) && glob_match g' s'
      end
  | GLit d :: g' =>
      match name with
      | [] => false
      | c :: s' => Ascii.eqb c d && glob_match g' s'
      end
  end.

(** [fnmatch.fnmatch(name, pat)] *)
Definition fnmatch (name pat : str) : bool := glob_match (translate pat) name.

(** ** The Docker client

    Every call on the client (and on the socket it hands out) is an event.
    The trace lists the calls that returned; a call that raises ends the
    request, since no function of the source catches an exception.
    [OsWrite] is [os.write] on the socket's descriptor, taken to write the
    whole of its line; [Logs] stands for [logs(stdout=True, stderr=True)]. *)

Inductive call :=
| CreateContainer (image : str) (stdin_open : bool)
| PutArchive (container path : str) (data : bytes)
| StartContainer (container : str)
| AttachSocket (container : str)
| OsWrite (data : bytes)
| SocketClose
| WaitContainer (container : str)
| Logs (container : str)
| GetArchive (container path : str)
| RemoveContainer (container : str).

Inductive exn :=
| APIError (c : call)
| Base64Error
| UnicodeDecodeError
| ReadError
| KeyError.

Inductive result (A : Type) :=
| Ok (a : A)
| Raise (e : exn).

Arguments Ok {A} a.
Arguments Raise {A} e.

(** The behaviour of the Docker host behind an [APIClient]: whether a call
    raises and what it returns, given the calls that returned before it. *)
Record APIClient := {
  raises : list call -> call -> bool;
  container_id : str;
  logs_bytes : list call -> bytes;
  archive_chunks : list call -> list bytes
}.

(** A computation reads the trace so far and extends it. *)
Definition M (A : Type) : Type := list call -> list call * result A.

Definition ret {A} (a : A) : M A := fun tr => (tr, Ok a).

Definition raise {A} (e : exn) : M A := fun tr => (tr, Raise e).

Definition bind {A B} (m : M A) (f : A -> M B) : M B :=
  fun tr =>
    match m tr with
    | (tr', Ok a) => f a tr'
    | (tr', Raise e) => (tr', Raise e)
    end.

Notation "x <- m ;; k" := (bind m (fun x => k))
  (at level 61, m at next level, right associativity).
Notation "m ;;; k" := (bind m (fun _ => k))
  (at level 61, right associativity).

(** A call on the client. *)
Definition api (api_client : APIClient) (c : call) : M unit :=
  fun tr =>
    if raises api_client tr c then (tr, Raise (APIError c))
    else (tr ++ [c], Ok tt).

(** A partial function of a library, raising [e] where it is not defined. *)
Definition lift {A} (e : exn) (o : option A) : M A :=
  match o with
  | Some a => ret a
  | None => raise e
  end.

(** A [for] loop. *)
Fixpoint for_each {A} (body : A -> M unit) (l : list A) : M unit :=
  match l with
  | [] => ret tt
  | a :: l' => body a ;;; for_each body l'
  end.

(** A member of a tar archive, as [getmembers] lists it: its [TarInfo] (the
    name apart, the header is left as bytes). *)
Record TarInfo := {
  name : str;
  header : bytes
}.

(** A member as [addfile] takes it: the [TarInfo] with what [extractfile]
    returned for it, which is [None] for a member that holds no data. *)
Definition member := (TarInfo * option bytes)%type.

(** The request and its distribution configuration: dictionaries, any key of
    which may be missing. *)
Record dist_config := {
  base_path : option str;
  artifacts : option (list str)
}.

Record request := {
  source : option str;
  commands : option (list str);
  dist : option dist_config
}.

Record response := {
  results : list command;
  output : option str
}.

(** [d.get(key, default)] *)
Definition get {A} (field : option A) (default : A) : A :=
  match field with
  | Some a => a
  | None => default
  end.

(** [if source_base64:] *)
Definition truthy (s : option str) : bool :=
  match s with
  | Some (_ :: _) => true
  | _ => false
  end.

Section Methods.

(** The codecs of the Python library, whose formats are not modelled:
    [base64.b64decode] and [bytes.decode] are partial, [base64.b64encode] is
    total; [tar_open] reads an archive (opening it and [getmembers]);
    [extractfile] gives the file object of a member of the archive read,
    [Some None] for a member that holds no data, and raises [KeyError] for a
    link whose target is not in the archive; [tar_bytes] writes an archive
    ([addfile] for each member, then closing it). *)
Variable b64decode : str -> option bytes.
Variable b64encode : bytes -> str.
Variable decode : bytes -> option str.
Variable tar_open : bytes -> option (list TarInfo).
Variable extractfile : bytes -> TarInfo -> option (option bytes).
Variable tar_bytes : list member -> bytes.

Definition create_container (api_client : APIClient) : M str :=
  api api_client (CreateContainer (lit "zenoscave/tunnel-runner:latest") true) ;;;
  ret (container_id api_client).

(** What the loop writes for one command. *)
Definition command_line (cmd : str) : bytes :=
  let cmd := replace [LF] (lit " ; ") cmd in
  cmd ++ [LF].

Definition eval_commands (api_client : APIClient) (container : str)
  (commands : list str) (source_base64 : option str) : M str :=
  (if truthy source_base64 then
     tar_stream <- lift Base64Error (b64decode (get source_base64 [])) ;;
     api api_client (PutArchive container (lit "/app/src") tar_stream)
   else ret tt) ;;;
  api api_client (StartContainer container) ;;;
  api api_client (AttachSocket container) ;;;
  for_each (fun cmd => api api_client (OsWrite (command_line cmd)))
           (commands ++ [lit "exit"]) ;;;
  api api_client SocketClose ;;;
  api api_client (WaitContainer container) ;;;
  api api_client (Logs container) ;;;
  (fun tr => lift UnicodeDecodeError (decode (logs_bytes api_client tr)) tr).

(** The test of the comprehension that selects the members. *)
Definition selected (base_path : str) (artifacts : list str) (m : TarInfo)
  : bool :=
  existsb (fun artifact => fnmatch (name m) (path_join base_path artifact))
          artifacts.

(** The pairs of the comprehension: [extractfile] is called on the members
    selected, in their order, and the first call that raises ends it. *)
Fixpoint extract_all (in_obj : bytes) (ms : list TarInfo)
  : option (list member) :=
  match ms with
  | [] => Some []
  | m :: ms' =>
      match extractfile in_obj m with
      | None => None
      | Some data =>
          match extract_all in_obj ms' with
          | None => None
          | Some members => Some ((m, data) :: members)
          end
      end
  end.

Definition retrieve_archive_base64 (api_client : APIClient) (container : str)
  (distribution_config : dist_config) : M (option str) :=
  let base_path := get (base_path distribution_config) [] in
  let artifacts := get (artifacts distribution_config) [] in
  match artifacts with
  | [] => ret None
  | _ :: _ =>
      api api_client
          (GetArchive container (path_join (lit "/app/src") base_path)) ;;;
      strm <- (fun tr => ret (archive_chunks api_client tr) tr) ;;
      let in_obj := concat strm in
      tar_stream <- lift ReadError (tar_open in_obj) ;;
      members <- lift KeyError
                   (extract_all in_obj
                      (filter (selected base_path artifacts) tar_stream)) ;;
      let out_obj := tar_bytes members in
      ret (Some (b64encode out_obj))
  end.

Definition run (api_client : APIClient) (request : request) : M response :=
  container <- create_container api_client ;;
  let source_base64 := source request in
  let commands := get (commands request) [] in
  lines <- eval_commands api_client container commands source_base64 ;;
  let results := parse_output lines in
  let distribution := get (dist request) {| base_path := None; artifacts := None |} in
  output_tarball <- retrieve_archive_base64 api_client container distribution ;;
  api api_client (RemoveContainer container) ;;;
  ret {| results := results; output := output_tarball |}.

End Methods.

(** ** Predicates on texts and traces used in the statements *)

(** [p in s] *)
Fixpoint occurs (p s : str) : bool :=
  startswith p s ||
  match s with
  | [] => false
  | _ :: s' => occurs p s'
  end.

(** A pattern none of whose characters [fnmatch] reads as special. *)
Definition literal (p : str) : bool :=
  forallb (fun c => negb (Ascii.eqb c "*" || Ascii.eqb c "?" || Ascii.eqb c "[")) p.

Definition is_put (c : call) : bool :=
  match c with PutArchive _ _ _ => true | _ => false end.

Definition is_start (c : call) : bool :=
  match c with StartContainer _ => true | _ => false end.

Definition is_write (c : call) : bool :=
  match c with OsWrite _ => true | _ => false end.

Definition is_remove (c : call) : bool :=
  match c with RemoveContainer _ => true | _ => false end.

(** What was written to the socket, in order. *)
Definition writes_of (tr : list call) : list bytes :=
  flat_map (fun c => match c with OsWrite d => [d] | _ => [] end) tr.

(** [l1] is the beginning of [l2]. *)
Definition prefix {A} (l1 l2 : list A) : Prop := exists l3, l2 = l1 ++ l3.

(** Wherever a call of kind [b] stands in the trace, a call of kind [a]
    stands before it, and none stands at or after it. *)
Definition before (a b : call -> bool) (tr : list call) : Prop :=
  forall l1 y l2, tr = l1 ++ y :: l2 -> b y = true ->
    existsb a l1 = true /\ existsb a (y :: l2) = false.

(** ** The specification's words, to compare the code with *)

(** The blocks of a text cut at its divider lines only: a divider line is a
    line that is exactly three dashes and is followed by a line break.
    [lines] are the pieces of the text between its line breaks; all but the
    last are followed by one. *)
Fixpoint divider_blocks_go (lines : list str) : list str :=
  match lines with
  | [] => [[]]
  | [l] => [l]
  | l :: rest =>
      if str_eqb l (lit "---") then [] :: divider_blocks_go rest
      else match divider_blocks_go rest with
           | cur :: more => (l ++ LF :: cur) :: more
           | [] => [l ++ [LF]]
           end
  end.

Definition divider_line_blocks (text : str) : list str :=
  divider_blocks_go (split [LF] text).

(** Shell-glob matching in which a star stays within one path segment: it
    matches no slash. *)
Fixpoint glob_match_segment (g : list glob) (name : str) : bool :=
  match g with
  | [] => match name with [] => true | _ :: _ => false end
  | GStar :: g' =>
      (fix star (s : str) : bool :=
         glob_match_segment g' s ||
         match s with
         | [] => false
         | c :: s' => negb (Ascii.eqb c "/") && star s'
         end) name
  | GAny :: g' =>
      match name with
      | [] => false
      | _ :: s' => glob_match_segment g' s'
      end
  | GClass negated items :: g' =>
      match name with
      | [] => false
      | c :: s' =>
          xorb negated (existsb (in_item c) items) && glob_match_segment g' s'
      end
  | GLit d :: g' =>
      match name with
      | [] => false
      | c :: s' => Ascii.eqb c d && glob_match_segment g' s'
      end
  end.

Definition selected_segment (base_path : str) (artifacts : list str)
  (m : TarInfo) : bool :=
  existsb (fun artifact =>
             glob_match_segment (translate (path_join base_path artifact))
                                (name m))
          artifacts.

(** The text rebuilt from records: each value as a line [[tag] value], and a
    divider line between two blocks. *)
Definition line_body (tag value : str) : str :=
  "[" :: tag ++ "]" :: " " :: value.

Definition tagged_line (tag value : str) : str :=
  line_body tag value ++ [LF].

Definition emit_record (c : command) : str :=
  concat (map (fun kv => concat (map (tagged_line (fst kv)) (snd kv))) c).

Definition reconstruct (cs : list command) : str :=
  join divider (map emit_record cs).

(** No value ends with three dashes or with a carriage return. *)
Definition clean_value (v : str) : bool :=
  negb (endswith (lit "---") v) && negb (endswith [CR] v).

Definition clean (cs : list command) : bool :=
  forallb (fun c => forallb (fun kv => forallb clean_value (snd kv)) c) cs.

(** ** Readings of a record and of a block used in the statements *)

(** [command.get(key, [])] *)
Fixpoint lookup (key : str) (c : command) : list str :=
  match c with
  | [] => []
  | (k, vs) :: rest => if str_eqb k key then vs else lookup key rest
  end.

(** The line matches the tag pattern. *)
Definition tagged (line : str) : bool :=
  match re_match line with
  | Some _ => true
  | None => false
  end.

(** The values of the lines tagged [key], in the order of the lines. *)
Definition values_for (key : str) (lines : list str) : list str :=
  flat_map (fun line =>
              match re_match line with
              | Some (k, v) => if str_eqb k key then [v] else []
              | None => []
              end) lines.

(** Every tagged line of the block carries the empty tag. *)
Definition only_empty_tags (command_text : str) : bool :=
  forallb (fun line =>
             match re_match line with
             | Some (key, _) => str_eqb key []
             | None => true
             end) (split [LF] command_text).

(** The text of the specification's parsing example. *)
Definition example_output : str :=
  lit "[out] hello" ++ LF :: lit "[out] world" ++ LF ::
  lit "---" ++ LF :: lit "[out] done" ++ [LF].

(** A text whose first block ends with three dashes. *)
Definition trailing_dashes_output : str :=
  lit "[out] a------" ++ LF :: lit "[out] b".

(** A line that ends with three dashes without being a divider line. *)
Definition dashes_output : str :=
  lit "[out] a---" ++ LF :: lit "[out] b" ++ [LF].

(** ** What the parser's records satisfy *)

(** The lines of a text, each followed by its line break. *)
Definition text_of (lines : list str) : str :=
  concat (map (fun x => x ++ [LF]) lines).

(** The tagged values of a record, in the order in which it is emitted. *)
Definition pairs (c : command) : list (str * str) :=
  flat_map (fun kv => map (pair (fst kv)) (snd kv)) c.

(** Records one tagged value. *)
Definition add_pair (c : command) (tv : str * str) : command :=
  append_value (fst tv) (snd tv) c.

(** Puts a text in front of the piece being read. *)
Definition pushes (x : str) (pieces : list str) : list str :=
  match pieces with
  | cur :: rest => (x ++ cur) :: rest
  | [] => [x]
  end.

(** A line that can be put back in a text: it holds no line break and ends
    neither with three dashes nor with a carriage return. *)
Definition good_line (x : str) : Prop :=
  ~ In LF x /\ endswith (lit "---") x = false /\ endswith [CR] x = false.

(** The text of a block that can be found again in the text rebuilt. *)
Definition good_text (t : str) : Prop :=
  exists xs, t = text_of xs /\ Forall good_line xs.

(** A tagged value that can be put back in a text. *)
Definition good_pair (tag value : str) : Prop :=
  ~ In "]" tag /\ ~ In LF tag /\ ~ In LF value /\ clean_value value = true.

(** An entry of a record the parser makes: the tag holds no closing bracket,
    tag and values hold no line break, and there is a value. *)
Definition wf_entry (kv : str * list str) : Prop :=
  ~ In "]" (fst kv) /\ ~ In LF (fst kv) /\
  snd kv <> [] /\ Forall (fun v => ~ In LF v) (snd kv).

(** A record the parser keeps: no tag twice, and some tag is not empty. *)
Definition wf_command (c : command) : Prop :=
  NoDup (map fst c) /\ Forall wf_entry c /\ any c = true.

(** ** The calls of a computation *)

(** A computation follows a script: from any trace it makes the calls of the
    script in order, all of them if it returns and the first few if it
    raises. *)
Definition follows {A} (m : M A) (script : list call) : Prop :=
  forall tr, exists done,
    fst (m tr) = tr ++ done /\ prefix done script /\
    (forall a, snd (m tr) = Ok a -> done = script).

(** A computation goes through a script as far as the client lets it: from
    any trace it makes the calls of the script in order, and if it leaves
    some of them out, the client raised on the first of these. *)
Definition stops {A} (api_client : APIClient) (m : M A) (script : list call)
  : Prop :=
  forall tr, exists done rest,
    script = done ++ rest /\
    fst (m tr) = tr ++ done /\
    match rest with
    | [] => True
    | c :: _ => raises api_client (tr ++ done) c = true
    end.

(** What [b64decode] gives for a source that is there and not empty. *)
Definition tar_stream_of (b64decode : str -> option bytes)
  (source_base64 : option str) : option bytes :=
  if truthy source_base64 then b64decode (get source_base64 []) else None.

(** The lines [eval_commands] writes for a list of commands. *)
Definition stream_of (commands : list str) : list bytes :=
  map command_line (commands ++ [lit "exit"]).

(** The calls of [eval_commands] once the source, if any, is decoded. *)
Definition eval_script (container : str) (commands : list str)
  (tar_stream : option bytes) : list call :=
  match tar_stream with
  | Some data => [PutArchive container (lit "/app/src") data]
  | None => []
  end ++
  StartContainer container :: AttachSocket container ::
  map OsWrite (stream_of commands) ++
  [SocketClose; WaitContainer container; Logs container].

(** The call of [retrieve_archive_base64], when there is one. *)
Definition retrieve_script (container : str) (d : dist_config) : list call :=
  match get (artifacts d) [] with
  | [] => []
  | _ :: _ =>
      [GetArchive container (path_join (lit "/app/src") (get (base_path d) []))]
  end.

(** A client no call of which raises, with a log of one tagged line and an
    archive of no chunk. *)
Definition quiet_client : APIClient := {|
  raises := fun _ _ => false;
  container_id := lit "c0";
  logs_bytes := fun _ => lit "[out] hi";
  archive_chunks := fun _ => []
|}.

(** A client whose container does not start. *)
Definition stuck_client : APIClient := {|
  raises := fun _ c => is_start c;
  container_id := lit "c0";
  logs_bytes := fun _ => [];
  archive_chunks := fun _ => []
|}.

(** Codecs to run the methods with: the encodings are the identity, and an
    archive is read as the one member that a test needs. *)
Definition id_codec (b : bytes) : option bytes := Some b.

Definition one_member (member_name : str) (_ : bytes) : option (list TarInfo) :=
  Some [{| name := member_name; header := [] |}].

(** Every member is a regular file with no content. *)
Definition empty_file (_ : bytes) (_ : TarInfo) : option (option bytes) :=
  Some (Some []).

Definition id_encode (b : bytes) : str := b.

Definition tar_names (ms : list member) : bytes :=
  concat (map (fun m => name (fst m) ++ [LF]) ms) ++ lit "<end>".

(** Members of an archive, named as in the specification's example. *)
Definition file (member_name : string) : TarInfo :=
  {| name := lit member_name; header := [] |}.

(** A configuration with patterns, and one without. *)
Definition txt_config : dist_config :=
  {| base_path := Some (lit "build"); artifacts := Some [lit "*.txt"] |}.

Definition no_config : dist_config :=
  {| base_path := Some (lit "build"); artifacts := None |}.




(** The request of the specification's streaming example. *)
Definition echo_request : request := {|
  source := Some (lit "c291cmNl");
  commands := Some [lit "echo a" ++ LF :: lit "echo b"];
  dist := Some {| base_path := Some (lit "build");
                  artifacts := Some [lit "*.txt"] |}
|}.

(** ** Further readings of a block and of a trace *)

(** The line is tagged, and its tag is not the empty string. *)
Definition named_tag (line : str) : bool :=
  match re_match line with
  | Some (key, _) => negb (str_eqb key [])
  | None => false
  end.

(** The block has a line tagged with a tag that is not empty. *)
Definition has_named_tag (command_text : str) : bool :=
  existsb named_tag (split [LF] command_text).

(** The tags of the tagged lines, in the order of the lines. *)
Definition tags_of (lines : list str) : list str :=
  flat_map (fun line =>
              match re_match line with
              | Some (key, _) => [key]
              | None => []
              end) lines.

(** The tags seen so far, with one more. *)
Definition add_key (seen : list str) (key : str) : list str :=
  if existsb (fun k => str_eqb k key) seen then seen else seen ++ [key].

(** A list of tags without its repetitions, each tag where it first stood. *)
Definition first_seen (keys : list str) : list str :=
  fold_left add_key keys [].

Definition is_close (c : call) : bool :=
  match c with SocketClose => true | _ => false end.

Definition is_wait (c : call) : bool :=
  match c with WaitContainer _ => true | _ => false end.

Definition is_logs (c : call) : bool :=
  match c with Logs _ => true | _ => false end.

(** A computation reports the errors of the client as they are: if it
    raises the error of a call, the client raised on that call, after the
    calls of the trace it leaves. *)
Definition reports {A} (api_client : APIClient) (m : M A) : Prop :=
  forall tr c,
    snd (m tr) = Raise (APIError c) ->
    raises api_client (fst (m tr)) c = true.

(** A decoder that rejects every source. *)
Definition no_codec (s : str) : option bytes := None.


(** * Properties *)

(** ** Python strings *)

Lemma str_eqb_eq (a b : str) : str_eqb a b = true <-> a = b.
Proof.
  revert b; induction a as [|x a IH]; intros [|y b]; simpl; split;
    try congruence; try reflexivity.
  - intros H. apply andb_prop in H as [Hx Hab].
    apply Ascii.eqb_eq in Hx. apply IH in Hab. congruence.
  - intros H. injection H as -> ->.
    rewrite Ascii.eqb_refl. simpl. now apply IH.
Qed.

Lemma str_eqb_refl (a : str) : str_eqb a a = true.
Proof. now apply str_eqb_eq. Qed.

Lemma str_eqb_neq (a b : str) : str_eqb a b = false <-> a <> b.
Proof.
  split.
  - intros H E. apply str_eqb_eq in E. congruence.
  - intros H. destruct (str_eqb a b) eqn:E; [|reflexivity].
    apply str_eqb_eq in E. contradiction.
Qed.

Lemma startswith_iff (p s : str) :
  startswith p s = true <-> exists r, s = p ++ r.
Proof.
  revert s; induction p as [|x p IH]; intros s; simpl.
  - split; [intros _; now exists s | reflexivity].
  - destruct s as [|y s].
    + split; [discriminate | intros [r Hr]; discriminate].
    + split.
      * intros H. apply andb_prop in H as [Hx Hp].
        apply Ascii.eqb_eq in Hx. apply IH in Hp as [r ->].
        exists r. now subst.
      * intros [r Hr]. injection Hr as -> ->.
        rewrite Ascii.eqb_refl. simpl. apply IH. now exists r.
Qed.

Lemma startswith_app (p s : str) : startswith p (p ++ s) = true.
Proof. apply startswith_iff. now exists s. Qed.

Lemma startswith_length (p s : str) :
  startswith p s = true -> length p <= length s.
Proof.
  intros H. apply startswith_iff in H as [r ->].
  rewrite length_app. lia.
Qed.

Lemma occurs_nil (p : str) : p <> [] -> occurs p [] = false.
Proof. destruct p; [congruence | reflexivity]. Qed.

Lemma occurs_cons (p : str) (c : ascii) (s : str) :
  occurs p (c :: s) = startswith p (c :: s) || occurs p s.
Proof. reflexivity. Qed.

(** *** [split] *)

Lemma split_go_nonempty (sep : str) (k : nat) (s : str) :
  split_go sep k s <> [].
Proof.
  revert k; induction s as [|c s IH]; intros k; simpl; [discriminate|].
  destruct k; [|apply IH].
  destruct (startswith sep (c :: s)); [discriminate|].
  specialize (IH 0). destruct (split_go sep 0 s); [contradiction|discriminate].
Qed.

Lemma split_go_skip (sep : str) (k : nat) (s : str) :
  k <= length s -> split_go sep k s = split_go sep 0 (skipn k s).
Proof.
  revert k; induction s as [|c s IH]; intros k Hk; simpl in *.
  - now replace k with 0 by lia.
  - destruct k; [reflexivity|]. simpl. apply IH. lia.
Qed.

Lemma split_sep_app (sep s : str) :
  sep <> [] -> split sep (sep ++ s) = [] :: split sep s.
Proof.
  intros Hsep. unfold split. destruct sep as [|x sep]; [contradiction|].
  change ((x :: sep) ++ s) with (x :: (sep ++ s)).
  cbn [split_go]. change (x :: sep ++ s) with ((x :: sep) ++ s).
  rewrite startswith_app. f_equal.
  rewrite split_go_skip by (simpl; rewrite length_app; lia).
  simpl. rewrite Nat.sub_0_r, skipn_app, skipn_all, Nat.sub_diag. reflexivity.
Qed.

Lemma split_miss (sep : str) (c : ascii) (s : str) :
  startswith sep (c :: s) = false ->
  split sep (c :: s) = push c (split sep s).
Proof. intros H. unfold split. cbn [split_go]. now rewrite H. Qed.

Lemma split_nil (sep : str) : split sep [] = [[]].
Proof. reflexivity. Qed.

Lemma join_push (sep : str) (c : ascii) (l : list str) :
  l <> [] -> join sep (push c l) = c :: join sep l.
Proof.
  destruct l as [|cur [|p rest]]; [contradiction| |]; reflexivity.
Qed.

Lemma join_cons (sep p : str) (l : list str) :
  l <> [] -> join sep (p :: l) = p ++ sep ++ join sep l.
Proof. destruct l; [contradiction | reflexivity]. Qed.

(** The pieces, put together again with the separator, are the text. *)
Lemma join_split (sep s : str) : sep <> [] -> join sep (split sep s) = s.
Proof.
  intros Hsep.
  remember (length s) as n eqn:Hn. revert s Hn.
  induction n as [n IH] using lt_wf_ind. intros s Hn.
  destruct s as [|c s]; [reflexivity|].
  destruct (startswith sep (c :: s)) eqn:E.
  - apply startswith_iff in E as [r Hr]. rewrite Hr.
    rewrite split_sep_app by assumption.
    rewrite join_cons by apply split_go_nonempty.
    simpl. f_equal.
    apply (IH (length r)); [|reflexivity].
    subst n. rewrite Hr, length_app.
    destruct sep; [contradiction | simpl; lia].
  - rewrite split_miss by assumption.
    rewrite join_push by apply split_go_nonempty.
    f_equal. apply (IH (length s)); [subst n; simpl; lia | reflexivity].
Qed.

Lemma split_head_prefix (sep s cur : str) (rest : list str) :
  sep <> [] -> split sep s = cur :: rest -> exists r, s = cur ++ r.
Proof.
  intros Hsep H. pose proof (join_split sep s Hsep) as J. rewrite H in J.
  destruct rest as [|p rest].
  - exists []. simpl in J. now rewrite app_nil_r.
  - exists (sep ++ join sep (p :: rest)). now rewrite <- J.
Qed.

(** No piece contains the separator. *)
Lemma split_no_occurrence (sep s : str) :
  sep <> [] -> Forall (fun b => occurs sep b = false) (split sep s).
Proof.
  intros Hsep.
  remember (length s) as n eqn:Hn. revert s Hn.
  induction n as [n IH] using lt_wf_ind. intros s Hn.
  destruct s as [|c s].
  - rewrite split_nil. constructor; [now apply occurs_nil | constructor].
  - destruct (startswith sep (c :: s)) eqn:E.
    + pose proof E as E'. apply startswith_iff in E' as [r Hr]. rewrite Hr.
      rewrite split_sep_app by assumption.
      constructor; [now apply occurs_nil|].
      apply (IH (length r)); [|reflexivity].
      subst n. rewrite Hr, length_app.
      destruct sep; [contradiction | simpl; lia].
    + rewrite split_miss by assumption.
      assert (IHs : Forall (fun b => occurs sep b = false) (split sep s))
        by (apply (IH (length s)); [subst n; simpl; lia | reflexivity]).
      destruct (split sep s) as [|cur rest] eqn:Es;
        [now apply split_go_nonempty in Es|].
      simpl. inversion IHs as [|? ? Hcur Hrest]; subst.
      constructor; [|assumption].
      rewrite occurs_cons, Hcur, orb_false_r.
      destruct (startswith sep (c :: cur)) eqn:E2; [|reflexivity].
      apply startswith_iff in E2 as [x Hx].
      destruct (split_head_prefix sep s cur rest Hsep Es) as [r Hr].
      assert (startswith sep (c :: s) = true).
      { apply startswith_iff. exists (x ++ r).
        rewrite Hr, app_comm_cons, Hx, app_assoc. reflexivity. }
      congruence.
Qed.

Lemma startswith_divider (s : str) :
  startswith divider s = true <->
  exists r, s = "-" :: "-" :: "-" :: LF :: r.
Proof. apply startswith_iff. Qed.

(** The first occurrence of the divider is a boundary, wherever it stands
    in its line: no other occurrence can begin before it. *)
Lemma split_divider_first (a b : str) :
  occurs divider a = false ->
  split divider (a ++ divider ++ b) = a :: split divider b.
Proof.
  induction a as [|c a IH]; intros Ha.
  - rewrite app_nil_l. apply split_sep_app. discriminate.
  - rewrite occurs_cons in Ha. apply orb_false_elim in Ha as [Hc Ha].
    rewrite <- app_comm_cons, split_miss.
    + now rewrite IH.
    + destruct (startswith divider (c :: a ++ divider ++ b)) eqn:E;
        [|reflexivity].
      apply startswith_divider in E as [r Hr].
      assert (startswith divider (c :: a) = true); [|congruence].
      apply startswith_divider.
      destruct a as [|x [|y [|z a]]]; try discriminate Hr.
      injection Hr as -> -> -> -> _. now exists a.
Qed.

(** ** [parse_output] *)

Lemma lookup_append_value (key k v : str) (c : command) :
  lookup key (append_value k v c) =
  if str_eqb k key then lookup key c ++ [v] else lookup key c.
Proof.
  induction c as [|[k' vs] c IH]; simpl.
  - destruct (str_eqb k key); reflexivity.
  - destruct (str_eqb k' k) eqn:E; simpl.
    + apply str_eqb_eq in E. subst k'.
      destruct (str_eqb k key); reflexivity.
    + destruct (str_eqb k' key) eqn:E'; [|apply IH].
      apply str_eqb_eq in E'. subst k'.
      destruct (str_eqb k key) eqn:E2; [|reflexivity].
      apply str_eqb_eq in E2. subst k. now rewrite str_eqb_refl in E.
Qed.

Lemma lookup_fold_add_line (key : str) (lines : list str) (c : command) :
  lookup key (fold_left add_line lines c) = lookup key c ++ values_for key lines.
Proof.
  revert c; induction lines as [|line lines IH]; intros c; simpl.
  - now rewrite app_nil_r.
  - rewrite IH. unfold add_line.
    destruct (re_match line) as [[k v]|]; [|reflexivity].
    rewrite lookup_append_value.
    destruct (str_eqb k key); [now rewrite <- app_assoc | reflexivity].
Qed.

Lemma fold_add_line_tagged (lines : list str) (c : command) :
  fold_left add_line lines c = fold_left add_line (filter tagged lines) c.
Proof.
  revert c; induction lines as [|line lines IH]; intros c; simpl; [reflexivity|].
  unfold tagged at 1, add_line at 2.
  destruct (re_match line) as [[k v]|] eqn:E; simpl.
  - unfold add_line at 3. rewrite E. apply IH.
  - apply IH.
Qed.

Lemma any_append_value (k v : str) (c : command) :
  any (append_value k v c) = any c || negb (str_eqb k []).
Proof.
  unfold any. induction c as [|[k' vs] c IH]; simpl.
  - now rewrite orb_false_r.
  - destruct (str_eqb k' k) eqn:E; simpl.
    + apply str_eqb_eq in E. subst k'.
      destruct (str_eqb k []); simpl; [now rewrite orb_false_r | reflexivity].
    + rewrite IH. now rewrite orb_assoc.
Qed.

Lemma any_fold_empty_tags (lines : list str) (c : command) :
  forallb (fun line =>
             match re_match line with
             | Some (key, _) => str_eqb key []
             | None => true
             end) lines = true ->
  any (fold_left add_line lines c) = any c.
Proof.
  revert c; induction lines as [|line lines IH]; intros c H; simpl in *;
    [reflexivity|].
  apply andb_prop in H as [Hl H]. rewrite IH by assumption.
  unfold add_line. destruct (re_match line) as [[k v]|]; [|reflexivity].
  rewrite any_append_value, Hl. apply orb_false_r.
Qed.

Lemma length_fold_add_block (bs : list str) (acc : list command) :
  length (fold_left add_block bs acc) <= length acc + length bs.
Proof.
  revert acc; induction bs as [|b bs IH]; intros acc; simpl; [lia|].
  specialize (IH (add_block acc b)). unfold add_block in *.
  destruct (any (command_of b)); [rewrite length_app in IH; simpl in IH|]; lia.
Qed.

Lemma fold_add_block_Forall (P : command -> Prop) (bs : list str)
  (acc : list command) :
  Forall P acc ->
  (forall b, In b bs -> any (command_of b) = true -> P (command_of b)) ->
  Forall P (fold_left add_block bs acc).
Proof.
  revert acc; induction bs as [|b bs IH]; intros acc Hacc HP; simpl;
    [assumption|].
  apply IH; [|intros; apply HP; [now right | assumption]].
  unfold add_block. destruct (any (command_of b)) eqn:E; [|assumption].
  apply Forall_app. split; [assumption|].
  constructor; [|constructor]. apply HP; [now left | assumption].
Qed.

Lemma fold_add_block_dropped (bs : list str) (acc : list command) :
  forallb (fun b => negb (any (command_of b))) bs = true ->
  fold_left add_block bs acc = acc.
Proof.
  revert acc; induction bs as [|b bs IH]; intros acc H; simpl in *;
    [reflexivity|].
  apply andb_prop in H as [Hb H]. rewrite IH by assumption.
  unfold add_block. apply negb_true_iff in Hb. now rewrite Hb.
Qed.

(** C5. The specification's example parses to its two records, and in every
    block the values recorded under a tag are those of the lines carrying
    that tag, in the order of the lines. *)
Theorem C5_example_and_emission_order :
  parse_output example_output =
    [[(lit "out", [lit "hello"; lit "world"])]; [(lit "out", [lit "done"])]] /\
  forall command_text key,
    lookup key (command_of command_text) =
    values_for key (split [LF] command_text).
Proof.
  split.
  - vm_compute. reflexivity.
  - intros command_text key. unfold command_of.
    now rewrite lookup_fold_add_line.
Qed.

(** C7. The parser is a total function: on every text it returns a list of
    records, at most one for each block; each record it returns has a tag
    that is not empty; the record of a block is built from its tagged lines
    alone, the other lines being passed over; a text none of whose lines is
    tagged gives the empty list. *)
Theorem C7_parse_output_total (output : str) :
  length (parse_output output) <= length (blocks output) /\
  Forall (fun c => any c = true) (parse_output output) /\
  (forall command_text,
     command_of command_text =
     fold_left add_line (filter tagged (split [LF] command_text)) []) /\
  (forallb (fun b => forallb (fun l => negb (tagged l)) (split [LF] b))
           (blocks output) = true ->
   parse_output output = []).
Proof.
  unfold parse_output. repeat split.
  - apply (length_fold_add_block (blocks output) []).
  - apply fold_add_block_Forall; [constructor | trivial].
  - intros command_text. apply fold_add_line_tagged.
  - intros H. apply fold_add_block_dropped.
    rewrite forallb_forall in *. intros b Hb. specialize (H b Hb).
    unfold command_of. rewrite fold_add_line_tagged.
    replace (filter tagged (split [LF] b)) with (@nil str); [reflexivity|].
    symmetry. clear Hb. induction (split [LF] b) as [|l ls IH];
      [reflexivity|].
    simpl in *. apply andb_prop in H as [Hl H].
    apply negb_true_iff in Hl. rewrite Hl. now apply IH.
Qed.

(** C7, at a text with no divider and no tagged line. *)
Lemma C7_parse_output_total_witness :
  length (parse_output (lit "no tag" ++ LF :: lit "[x]y")) <= 1 /\
  parse_output (lit "no tag" ++ LF :: lit "[x]y") = [].
Proof.
  pose proof (C7_parse_output_total (lit "no tag" ++ LF :: lit "[x]y"))
    as (Hlen & _ & _ & Hnone).
  split; [exact Hlen | apply Hnone; reflexivity].
Defined.

(** C10. A block all of whose tagged lines carry the empty tag adds no
    record: [any] reads the keys, and the empty string is false. *)
Theorem C10_empty_tag_block_dropped (commands : list command)
  (command_text : str) :
  only_empty_tags command_text = true ->
  any (command_of command_text) = false /\
  add_block commands command_text = commands.
Proof.
  intros H.
  assert (E : any (command_of command_text) = false)
    by (unfold command_of; now rewrite any_fold_empty_tags).
  split; [assumption|]. unfold add_block. now rewrite E.
Qed.

(** C10, at a block of two lines tagged with the empty string: the block has
    a record, and the record is dropped. *)
Lemma C10_empty_tag_block_dropped_witness :
  command_of (lit "[] text" ++ LF :: lit "[] more") =
    [([], [lit "text"; lit "more"])] /\
  any (command_of (lit "[] text" ++ LF :: lit "[] more")) = false /\
  add_block [] (lit "[] text" ++ LF :: lit "[] more") = [].
Proof.
  split; [reflexivity|].
  apply (C10_empty_tag_block_dropped [] (lit "[] text" ++ LF :: lit "[] more")).
  reflexivity.
Defined.

(** C1, refuted as stated: the end of a line that ends with three dashes is
    a block boundary.  The text has no divider line, so cut at divider lines
    it is one block and would parse to one record holding both values; the
    parser cuts it in two. *)
Lemma C1_dashes_at_line_end_are_a_boundary :
  blocks dashes_output = [lit "[out] a"; lit "[out] b" ++ [LF]] /\
  divider_line_blocks (replace [CR; LF] [LF] dashes_output) = [dashes_output] /\
  blocks dashes_output <>
    divider_line_blocks (replace [CR; LF] [LF] dashes_output) /\
  parse_output dashes_output =
    [[(lit "out", [lit "a"])]; [(lit "out", [lit "b"])]].
Proof. vm_compute. repeat split; try reflexivity. discriminate. Qed.

(** C1, amended.  The blocks are the pieces of the normalized text between
    the occurrences of the four characters of the divider (three dashes and
    a line feed), found from the left, whether or not the dashes begin their
    line: joined with the divider the blocks give back the text, no block
    contains the divider, and the first block ends where the divider first
    occurs. *)
Theorem C1_blocks_cut_at_divider_occurrences (output : str) :
  join divider (blocks output) = replace [CR; LF] [LF] output /\
  Forall (fun b => occurs divider b = false) (blocks output) /\
  (forall a b,
     replace [CR; LF] [LF] output = a ++ divider ++ b ->
     occurs divider a = false ->
     blocks output = a :: split divider b).
Proof.
  unfold blocks. repeat split.
  - apply join_split. discriminate.
  - apply split_no_occurrence. discriminate.
  - intros a b -> Ha. now apply split_divider_first.
Qed.

(** C1, amended, at the text whose first line ends with three dashes. *)
Lemma C1_blocks_cut_at_divider_occurrences_witness :
  blocks dashes_output = lit "[out] a" :: split divider (lit "[out] b" ++ [LF]).
Proof.
  apply (C1_blocks_cut_at_divider_occurrences dashes_output);
    reflexivity.
Defined.

(** ** Parsing a reconstructed text *)

Lemma endswith_iff (p s : str) :
  endswith p s = true <-> exists pre, s = pre ++ p.
Proof.
  unfold endswith. rewrite startswith_iff. split; intros [r Hr].
  - exists (rev r). apply (f_equal (@rev ascii)) in Hr.
    rewrite rev_involutive, rev_app_distr, rev_involutive in Hr. exact Hr.
  - exists (rev r). subst. now rewrite rev_app_distr.
Qed.

Lemma endswith_tail (p : str) (c : ascii) (s : str) :
  endswith p (c :: s) = false -> endswith p s = false.
Proof.
  intros H. destruct (endswith p s) eqn:E; [|reflexivity].
  apply endswith_iff in E as [pre ->].
  assert (endswith p (c :: pre ++ p) = true); [|congruence].
  apply endswith_iff. now exists (c :: pre).
Qed.

Lemma good_line_tail (c : ascii) (x : str) : good_line (c :: x) -> good_line x.
Proof.
  intros (Hlf & Hd & Hcr). repeat split.
  - intros H. apply Hlf. now right.
  - eapply endswith_tail; eassumption.
  - eapply endswith_tail; eassumption.
Qed.

Lemma pushes_app (a b : str) (l : list str) :
  pushes (a ++ b) l = pushes a (pushes b l).
Proof. destruct l; simpl; [reflexivity | now rewrite app_assoc]. Qed.

Lemma push_pushes (c : ascii) (x : str) (l : list str) :
  push c (pushes x l) = pushes (c :: x) l.
Proof. destruct l; reflexivity. Qed.

Lemma split_divider_line (x rest : str) :
  good_line x ->
  split divider (x ++ LF :: rest) = pushes (x ++ [LF]) (split divider rest).
Proof.
  induction x as [|c x IH]; intros Hx.
  - simpl. rewrite split_miss by reflexivity.
    destruct (split divider rest); reflexivity.
  - rewrite <- !app_comm_cons, split_miss.
    + rewrite IH by (eapply good_line_tail; eassumption).
      apply push_pushes.
    + destruct (startswith divider (c :: x ++ LF :: rest)) eqn:E;
        [|reflexivity].
      exfalso. apply startswith_divider in E as [r Hr].
      destruct Hx as (Hlf & Hd & _).
      destruct x as [|a [|b [|d x]]]; try discriminate Hr.
      * injection Hr as -> -> -> _. discriminate Hd.
      * injection Hr as _ _ _ -> _. apply Hlf. simpl. auto.
Qed.

Lemma replace_crlf_line (x rest : str) :
  good_line x ->
  replace_go [CR; LF] [LF] 0 (x ++ LF :: rest) =
  x ++ LF :: replace_go [CR; LF] [LF] 0 rest.
Proof.
  induction x as [|c x IH]; intros Hx.
  - reflexivity.
  - rewrite <- !app_comm_cons. cbn [replace_go].
    destruct (startswith [CR; LF] (c :: x ++ LF :: rest)) eqn:E.
    + exfalso. apply startswith_iff in E as [r Hr].
      destruct Hx as (Hlf & _ & Hcr).
      destruct x as [|a x].
      * injection Hr as -> _. discriminate Hcr.
      * injection Hr as _ -> _. apply Hlf. simpl. auto.
    + f_equal. apply IH. eapply good_line_tail; eassumption.
Qed.

Lemma split_lf_line (x rest : str) :
  ~ In LF x -> split [LF] (x ++ LF :: rest) = x :: split [LF] rest.
Proof.
  induction x as [|c x IH]; intros Hx.
  - reflexivity.
  - rewrite <- app_comm_cons, split_miss.
    + rewrite IH; [reflexivity | intros H; apply Hx; now right].
    + cbn [startswith]. destruct (Ascii.eqb LF c) eqn:E; [|reflexivity].
      apply Ascii.eqb_eq in E. exfalso. apply Hx. now left.
Qed.

Lemma split_divider_text (xs : list str) (rest : str) :
  Forall good_line xs ->
  split divider (text_of xs ++ rest) = pushes (text_of xs) (split divider rest).
Proof.
  unfold text_of. induction 1 as [|x xs Hx Hxs IH]; simpl.
  - destruct (split divider rest) eqn:E; [|reflexivity].
    now apply split_go_nonempty in E.
  - rewrite <- !app_assoc. simpl. rewrite split_divider_line by assumption.
    rewrite IH. now rewrite <- pushes_app, <- app_assoc.
Qed.

Lemma replace_crlf_text (xs : list str) (rest : str) :
  Forall good_line xs ->
  replace_go [CR; LF] [LF] 0 (text_of xs ++ rest) =
  text_of xs ++ replace_go [CR; LF] [LF] 0 rest.
Proof.
  unfold text_of. induction 1 as [|x xs Hx Hxs IH]; simpl; [reflexivity|].
  rewrite <- !app_assoc. simpl. rewrite replace_crlf_line by assumption.
  now rewrite IH.
Qed.

Lemma split_lf_text (xs : list str) :
  Forall (fun x => ~ In LF x) xs -> split [LF] (text_of xs) = xs ++ [[]].
Proof.
  unfold text_of. induction 1 as [|x xs Hx Hxs IH]; simpl; [reflexivity|].
  rewrite <- app_assoc. simpl. rewrite split_lf_line by assumption.
  now rewrite IH.
Qed.

Lemma until_bracket_app (tag r : str) :
  ~ In "]" tag -> until_bracket (tag ++ "]" :: r) = Some (tag, r).
Proof.
  induction tag as [|c tag IH]; intros H; simpl.
  - reflexivity.
  - destruct (Ascii.eqb c "]") eqn:E.
    + apply Ascii.eqb_eq in E. exfalso. apply H. now left.
    + rewrite IH; [reflexivity | intros H'; apply H; now right].
Qed.

Lemma until_bracket_inv (s key r : str) :
  until_bracket s = Some (key, r) -> s = key ++ "]" :: r /\ ~ In "]" key.
Proof.
  revert key; induction s as [|c s IH]; intros key H; simpl in H;
    [discriminate|].
  destruct (Ascii.eqb c "]") eqn:E.
  - apply Ascii.eqb_eq in E. injection H as <- <-. subst c. auto.
  - destruct (until_bracket s) as [[k r']|]; [|discriminate].
    injection H as <- <-. destruct (IH k eq_refl) as [-> Hk].
    split; [reflexivity|]. intros [->|H']; [|contradiction].
    now rewrite Ascii.eqb_refl in E.
Qed.

Lemma rest_of_line_id (v : str) : ~ In LF v -> rest_of_line v = Some v.
Proof.
  induction v as [|c v IH]; intros H; simpl; [reflexivity|].
  destruct (Ascii.eqb c LF) eqn:E.
  - apply Ascii.eqb_eq in E. exfalso. apply H. now left.
  - rewrite IH; [reflexivity | intros H'; apply H; now right].
Qed.

Lemma rest_of_line_inv (r v : str) :
  rest_of_line r = Some v -> ~ In LF v.
Proof.
  revert v; induction r as [|c r IH]; intros v H; simpl in H.
  - injection H as <-. auto.
  - destruct (Ascii.eqb c LF) eqn:E.
    + destruct r; [|discriminate]. injection H as <-. auto.
    + destruct (rest_of_line r) as [v'|]; [|discriminate].
      injection H as <-. intros [->|H']; [|now apply (IH v')].
      now rewrite Ascii.eqb_refl in E.
Qed.

Lemma re_match_line_body (tag value : str) :
  ~ In "]" tag -> ~ In LF value ->
  re_match (line_body tag value) = Some (tag, value).
Proof.
  intros Ht Hv. unfold re_match, line_body.
  rewrite Ascii.eqb_refl, until_bracket_app by assumption.
  rewrite Ascii.eqb_refl, rest_of_line_id by assumption. reflexivity.
Qed.

Lemma re_match_inv (line key value : str) :
  re_match line = Some (key, value) ->
  ~ In "]" key /\ ~ In LF value /\ exists r, line = "[" :: key ++ "]" :: " " :: r.
Proof.
  unfold re_match. destruct line as [|c s]; [discriminate|].
  destruct (Ascii.eqb c "[") eqn:Ec; [|discriminate].
  destruct (until_bracket s) as [[k [|sp r]]|] eqn:Eu; try discriminate.
  destruct (Ascii.eqb sp " ") eqn:Es; [|discriminate].
  destruct (rest_of_line r) as [v|] eqn:Er; [|discriminate].
  intros H. injection H as <- <-.
  apply Ascii.eqb_eq in Ec, Es. subst c sp.
  apply until_bracket_inv in Eu as [-> Hk]. apply rest_of_line_inv in Er.
  repeat split; try assumption. now exists r.
Qed.

(** *** Grouping the values again *)

Lemma append_value_fresh (k v : str) (c : command) :
  ~ In k (map fst c) -> append_value k v c = c ++ [(k, [v])].
Proof.
  induction c as [|[k' vs] c IH]; intros H; simpl; [reflexivity|].
  destruct (str_eqb k' k) eqn:E.
  - apply str_eqb_eq in E. exfalso. apply H. now left.
  - rewrite IH; [reflexivity | intros H'; apply H; now right].
Qed.

Lemma append_value_last (k v : str) (vs : list str) (c : command) :
  ~ In k (map fst c) ->
  append_value k v (c ++ [(k, vs)]) = c ++ [(k, vs ++ [v])].
Proof.
  induction c as [|[k' vs'] c IH]; intros H; simpl.
  - now rewrite str_eqb_refl.
  - destruct (str_eqb k' k) eqn:E.
    + apply str_eqb_eq in E. exfalso. apply H. now left.
    + rewrite IH; [reflexivity | intros H'; apply H; now right].
Qed.

Lemma fold_add_pair_values (k : str) (vs done : list str) (c : command) :
  ~ In k (map fst c) ->
  fold_left add_pair (map (pair k) vs) (c ++ [(k, done)]) =
  c ++ [(k, done ++ vs)].
Proof.
  intros H. revert done; induction vs as [|v vs IH]; intros done; simpl.
  - now rewrite app_nil_r.
  - unfold add_pair at 2. simpl. rewrite append_value_last by assumption.
    rewrite IH. now rewrite <- app_assoc.
Qed.

Lemma fold_add_pair_pairs (c acc : command) :
  NoDup (map fst (acc ++ c)) ->
  Forall (fun kv => snd kv <> []) c ->
  fold_left add_pair (pairs c) acc = acc ++ c.
Proof.
  revert acc; induction c as [|[k vs] c IH]; intros acc Hnd Hvs; simpl.
  - now rewrite app_nil_r.
  - inversion Hvs as [|? ? Hk Hc]; subst. simpl in Hk.
    destruct vs as [|v vs]; [contradiction|].
    assert (Hfresh : ~ In k (map fst acc)).
    { rewrite map_app in Hnd. simpl in Hnd.
      apply NoDup_remove_2 in Hnd. intros H. apply Hnd.
      apply in_or_app. now left. }
    rewrite fold_left_app. cbn [map fold_left].
    change (add_pair acc (k, v)) with (append_value k v acc).
    rewrite append_value_fresh by assumption.
    rewrite fold_add_pair_values by assumption. simpl.
    rewrite IH; [now rewrite <- app_assoc | now rewrite <- app_assoc |
                 assumption].
Qed.

Lemma fold_add_line_bodies (tvs : list (str * str)) (acc : command) :
  Forall (fun tv => ~ In "]" (fst tv) /\ ~ In LF (snd tv)) tvs ->
  fold_left add_line (map (fun tv => line_body (fst tv) (snd tv)) tvs) acc =
  fold_left add_pair tvs acc.
Proof.
  intros H; revert acc; induction H as [|[t v] tvs [Ht Hv] Htvs IH];
    intros acc; simpl; [reflexivity|].
  rewrite IH. f_equal. unfold add_line. cbn [fst snd] in *.
  now rewrite re_match_line_body.
Qed.

(** *** The lines of an emitted record *)

Lemma emit_record_pairs (c : command) :
  emit_record c =
  text_of (map (fun tv => line_body (fst tv) (snd tv)) (pairs c)).
Proof.
  unfold emit_record, text_of, pairs.
  induction c as [|[k vs] c IH]; simpl; [reflexivity|].
  rewrite !map_app, concat_app, IH. f_equal.
  rewrite !map_map. reflexivity.
Qed.

Lemma endswith_dashes_after_space (pre v : str) :
  endswith (lit "---") v = false ->
  endswith (lit "---") (pre ++ " " :: v) = false.
Proof.
  unfold endswith. rewrite rev_app_distr. cbn [rev].
  change (rev (lit "---")) with ["-"; "-"; "-"].
  destruct (rev v) as [|a [|b [|d w]]]; cbn [startswith app]; intros H.
  - reflexivity.
  - destruct (Ascii.eqb "-" a); reflexivity.
  - destruct (Ascii.eqb "-" a), (Ascii.eqb "-" b); reflexivity.
  - exact H.
Qed.

Lemma endswith_cr_after_space (pre v : str) :
  endswith [CR] v = false -> endswith [CR] (pre ++ " " :: v) = false.
Proof.
  unfold endswith. rewrite rev_app_distr. cbn [rev].
  destruct (rev v) as [|a w]; cbn [startswith app]; intros H.
  - reflexivity.
  - exact H.
Qed.

Lemma good_line_body (tag value : str) :
  ~ In LF tag -> ~ In LF value -> clean_value value = true ->
  good_line (line_body tag value).
Proof.
  intros Ht Hv Hc. unfold clean_value in Hc.
  apply andb_prop in Hc as [Hd Hcr]. apply negb_true_iff in Hd, Hcr.
  unfold line_body.
  replace ("[" :: tag ++ "]" :: " " :: value)
    with (("[" :: tag ++ ["]"]) ++ " " :: value)
    by (simpl; now rewrite <- app_assoc).
  repeat split.
  - intros H. apply in_app_or in H as [H|H].
    + destruct H as [H|H]; [discriminate|].
      apply in_app_or in H as [H|[H|[]]]; [contradiction | discriminate].
    + destruct H as [H|H]; [discriminate | contradiction].
  - now apply endswith_dashes_after_space.
  - now apply endswith_cr_after_space.
Qed.

Lemma pairs_Forall (P : str -> str -> Prop) (c : command) :
  Forall (fun kv => Forall (P (fst kv)) (snd kv)) c ->
  Forall (fun tv => P (fst tv) (snd tv)) (pairs c).
Proof.
  unfold pairs. induction 1 as [|[k vs] c Hkv Hc IH]; simpl; [constructor|].
  apply Forall_app. split; [|assumption].
  simpl in Hkv. induction Hkv; simpl; constructor; assumption.
Qed.

Lemma wf_clean_entries (c : command) :
  Forall wf_entry c ->
  forallb (fun kv => forallb clean_value (snd kv)) c = true ->
  Forall (fun kv => Forall (good_pair (fst kv)) (snd kv)) c.
Proof.
  induction 1 as [|kv c (Hb & Hlf & _ & Hvs) Hc IH]; simpl; intros H;
    [constructor|].
  apply andb_prop in H as [Hkv H]. constructor; [|now apply IH].
  rewrite forallb_forall in Hkv. rewrite Forall_forall in *.
  intros v Hv. unfold good_pair. auto.
Qed.

(** Parsing the text emitted for a record gives the record. *)
Lemma command_of_emit_record (c : command) :
  wf_command c ->
  forallb (fun kv => forallb clean_value (snd kv)) c = true ->
  command_of (emit_record c) = c.
Proof.
  intros (Hnd & Hwf & _) Hclean.
  pose proof (pairs_Forall good_pair c (wf_clean_entries c Hwf Hclean)) as Hp.
  unfold command_of. rewrite emit_record_pairs, split_lf_text.
  - rewrite fold_left_app. simpl.
    rewrite fold_add_line_bodies.
    + rewrite fold_add_pair_pairs; [reflexivity | assumption|].
      eapply Forall_impl; [|exact Hwf]. now intros kv (_ & _ & H & _).
    + eapply Forall_impl; [|exact Hp]. now intros tv (H1 & _ & H2 & _).
  - apply Forall_map. eapply Forall_impl; [|exact Hp].
    intros tv (_ & H1 & H2 & H3). now apply good_line_body.
Qed.

Lemma good_text_emit_record (c : command) :
  wf_command c ->
  forallb (fun kv => forallb clean_value (snd kv)) c = true ->
  good_text (emit_record c).
Proof.
  intros (_ & Hwf & _) Hclean.
  pose proof (pairs_Forall good_pair c (wf_clean_entries c Hwf Hclean)) as Hp.
  eexists. split; [apply emit_record_pairs|].
  apply Forall_map. eapply Forall_impl; [|exact Hp].
  intros tv (_ & H1 & H2 & H3). now apply good_line_body.
Qed.

Lemma replace_crlf_join (ts : list str) :
  Forall good_text ts ->
  replace [CR; LF] [LF] (join divider ts) = join divider ts.
Proof.
  unfold replace.
  induction 1 as [|t ts (xs & -> & Hxs) Hts IH]; [reflexivity|].
  destruct ts as [|t2 ts].
  - simpl. rewrite <- (app_nil_r (text_of xs)) at 1.
    rewrite replace_crlf_text by assumption. simpl. apply app_nil_r.
  - rewrite join_cons by discriminate.
    rewrite replace_crlf_text by assumption. f_equal.
    change (replace_go [CR; LF] [LF] 0 (divider ++ join divider (t2 :: ts)))
      with (divider ++ replace_go [CR; LF] [LF] 0 (join divider (t2 :: ts))).
    now rewrite IH.
Qed.

Lemma split_divider_join (ts : list str) :
  Forall good_text ts -> ts <> [] -> split divider (join divider ts) = ts.
Proof.
  induction 1 as [|t ts (xs & -> & Hxs) Hts IH]; [contradiction|].
  intros _. destruct ts as [|t2 ts].
  - simpl. rewrite <- (app_nil_r (text_of xs)) at 1.
    rewrite split_divider_text by assumption.
    rewrite split_nil. simpl. now rewrite app_nil_r.
  - rewrite join_cons by discriminate.
    rewrite split_divider_text by assumption.
    rewrite split_sep_app by discriminate.
    rewrite IH by discriminate. simpl. now rewrite app_nil_r.
Qed.

Lemma fold_add_block_emit (cs acc : list command) :
  Forall wf_command cs -> clean cs = true ->
  fold_left add_block (map emit_record cs) acc = acc ++ cs.
Proof.
  intros H; revert acc; induction H as [|c cs Hc Hcs IH]; intros acc Hclean;
    simpl in *.
  - now rewrite app_nil_r.
  - apply andb_prop in Hclean as [Hcl Hclean].
    rewrite IH by assumption. unfold add_block.
    rewrite command_of_emit_record by assumption.
    destruct Hc as (_ & _ & ->). now rewrite <- app_assoc.
Qed.

Lemma parse_output_reconstruct (cs : list command) :
  Forall wf_command cs -> clean cs = true ->
  parse_output (reconstruct cs) = cs.
Proof.
  intros Hwf Hclean. destruct cs as [|c cs]; [reflexivity|].
  assert (Hgood : Forall good_text (map emit_record (c :: cs))).
  { apply Forall_map. unfold clean in Hclean.
    rewrite forallb_forall in Hclean. rewrite Forall_forall in *.
    intros x Hx. apply good_text_emit_record; auto. }
  unfold parse_output, blocks, reconstruct.
  rewrite replace_crlf_join by assumption.
  rewrite split_divider_join by (assumption || discriminate).
  now apply fold_add_block_emit.
Qed.

(** *** The records the parser makes *)

Lemma keys_append_value (k v : str) (c : command) (x : str) :
  In x (map fst (append_value k v c)) -> x = k \/ In x (map fst c).
Proof.
  induction c as [|[k' vs] c IH]; simpl.
  - intros [<-|[]]. now left.
  - destruct (str_eqb k' k); simpl; intros [H|H]; auto.
    destruct (IH H); auto.
Qed.

Lemma NoDup_append_value (k v : str) (c : command) :
  NoDup (map fst c) -> NoDup (map fst (append_value k v c)).
Proof.
  induction c as [|[k' vs] c IH]; simpl; intros H.
  - constructor; [auto | constructor].
  - inversion H as [|? ? Hk' Hc]; subst.
    destruct (str_eqb k' k) eqn:E; simpl; [now constructor|].
    constructor; [|now apply IH].
    intros Hin. apply keys_append_value in Hin as [->|Hin]; [|contradiction].
    now rewrite str_eqb_refl in E.
Qed.

Lemma wf_entry_append_value (k v : str) (c : command) :
  ~ In "]" k -> ~ In LF k -> ~ In LF v ->
  Forall wf_entry c -> Forall wf_entry (append_value k v c).
Proof.
  intros Hb Hk Hv. induction 1 as [|[k' vs] c Hkv Hc IH]; simpl.
  - constructor; [|constructor]. unfold wf_entry. simpl.
    repeat split; auto. discriminate.
  - destruct (str_eqb k' k) eqn:E; constructor; auto.
    destruct Hkv as (H1 & H2 & H3 & H4). unfold wf_entry. simpl in *.
    repeat split; auto.
    + destruct vs; discriminate.
    + apply Forall_app. split; [assumption | constructor; auto].
Qed.

Lemma occurs_single (c : ascii) (s : str) :
  occurs [c] s = false -> ~ In c s.
Proof.
  induction s as [|a s IH]; [auto|].
  rewrite occurs_cons. cbn [startswith]. intros H.
  apply orb_false_elim in H as [Ha Hs]. rewrite andb_true_r in Ha.
  intros [->|Hin]; [now rewrite Ascii.eqb_refl in Ha | now apply IH].
Qed.

Lemma split_lf_no_lf (s : str) : Forall (fun l => ~ In LF l) (split [LF] s).
Proof.
  eapply Forall_impl; [|apply (split_no_occurrence [LF] s); discriminate].
  intros l. apply occurs_single.
Qed.

Lemma fold_add_line_wf (lines : list str) (c : command) :
  Forall (fun l => ~ In LF l) lines ->
  NoDup (map fst c) /\ Forall wf_entry c ->
  NoDup (map fst (fold_left add_line lines c)) /\
  Forall wf_entry (fold_left add_line lines c).
Proof.
  intros H; revert c; induction H as [|line lines Hl Hls IH]; intros c Hc;
    simpl; [assumption|].
  apply IH. unfold add_line.
  destruct (re_match line) as [[k v]|] eqn:E; [|assumption].
  apply re_match_inv in E as (Hb & Hv & r & ->).
  destruct Hc as [Hnd Hwf]. split.
  - now apply NoDup_append_value.
  - apply wf_entry_append_value; auto.
    intros Hin. apply Hl. right. apply in_or_app. now left.
Qed.

Lemma parse_output_wf (output : str) : Forall wf_command (parse_output output).
Proof.
  unfold parse_output. apply fold_add_block_Forall; [constructor|].
  intros b _ Hany.
  destruct (fold_add_line_wf (split [LF] b) [] (split_lf_no_lf b)) as [H1 H2].
  - split; constructor.
  - repeat split; assumption.
Qed.

(** C6, refuted as stated.  The first block of the text ends with three
    dashes, which the parser keeps in the value; written back as a line, the
    dashes and the line break after them are a divider, so the text rebuilt
    parses to another value. *)
Lemma C6_value_ending_with_dashes_is_cut :
  parse_output trailing_dashes_output =
    [[(lit "out", [lit "a---"])]; [(lit "out", [lit "b"])]] /\
  reconstruct (parse_output trailing_dashes_output) =
    lit "[out] a---" ++ LF :: lit "---" ++ LF :: lit "[out] b" ++ [LF] /\
  parse_output (reconstruct (parse_output trailing_dashes_output)) =
    [[(lit "out", [lit "a"])]; [(lit "out", [lit "b"])]] /\
  parse_output (reconstruct (parse_output trailing_dashes_output)) <>
    parse_output trailing_dashes_output.
Proof. vm_compute. repeat split; try reflexivity. discriminate. Qed.

(** C6, amended.  When no value of the records parsed from a text ends with
    three dashes or with a carriage return, the text rebuilt from the
    records (each value as a line [[tag] value], a divider line between two
    blocks) parses to the same records. *)
Theorem C6_reparse_of_reconstructed_text (output : str) :
  clean (parse_output output) = true ->
  parse_output (reconstruct (parse_output output)) = parse_output output.
Proof.
  intros Hclean. apply parse_output_reconstruct; [|assumption].
  apply parse_output_wf.
Qed.

(** C6, amended, at the specification's example. *)
Lemma C6_reparse_of_reconstructed_text_witness :
  parse_output (reconstruct (parse_output example_output)) =
  parse_output example_output.
Proof.
  apply (C6_reparse_of_reconstructed_text example_output). reflexivity.
Defined.

(** ** The calls the methods make *)

Lemma prefix_nil {A} (l : list A) : prefix [] l.
Proof. now exists l. Qed.

Lemma prefix_refl {A} (l : list A) : prefix l l.
Proof. exists []. now rewrite app_nil_r. Qed.

Lemma prefix_app_r {A} (l1 l2 l3 : list A) : prefix l1 l2 -> prefix l1 (l2 ++ l3).
Proof. intros [r ->]. exists (r ++ l3). now rewrite app_assoc. Qed.

Lemma prefix_app {A} (l l1 l2 : list A) : prefix l1 l2 -> prefix (l ++ l1) (l ++ l2).
Proof. intros [r ->]. exists r. now rewrite app_assoc. Qed.

Lemma follows_ret {A} (a : A) : follows (ret a) [].
Proof.
  intros tr. exists []. simpl. rewrite app_nil_r.
  split; [reflexivity | split; [apply prefix_nil | auto]].
Qed.

Lemma follows_raise {A} (e : exn) (script : list call) :
  follows (@raise A e) script.
Proof.
  intros tr. exists []. simpl. rewrite app_nil_r.
  split; [reflexivity | split; [apply prefix_nil | discriminate]].
Qed.

Lemma follows_api (api_client : APIClient) (c : call) :
  follows (api api_client c) [c].
Proof.
  intros tr. unfold api. destruct (raises api_client tr c); simpl.
  - exists []. rewrite app_nil_r.
    split; [reflexivity | split; [apply prefix_nil | discriminate]].
  - exists [c]. split; [reflexivity | split; [apply prefix_refl | auto]].
Qed.

Lemma follows_bind {A B} (m : M A) (f : A -> M B) (s1 s2 : list call) :
  follows m s1 -> (forall a, follows (f a) s2) -> follows (bind m f) (s1 ++ s2).
Proof.
  intros Hm Hf tr. unfold bind.
  destruct (Hm tr) as (d1 & E1 & P1 & O1).
  destruct (m tr) as [tr1 [a|e]]; simpl in *.
  - specialize (O1 a eq_refl). subst d1 tr1.
    destruct (Hf a (tr ++ s1)) as (d2 & E2 & P2 & O2).
    exists (s1 ++ d2). rewrite app_assoc.
    split; [assumption | split; [now apply prefix_app|]].
    intros b Hb. now rewrite (O2 b Hb).
  - exists d1. split; [assumption | split; [now apply prefix_app_r|]].
    discriminate.
Qed.

Lemma follows_bind_raise {A B} (e : exn) (f : A -> M B) (script : list call) :
  follows (bind (raise e) f) script.
Proof. apply (follows_raise e script). Qed.

Lemma follows_read {A} (g : list call -> M A) (script : list call) :
  (forall t, follows (g t) script) -> follows (fun tr => g tr tr) script.
Proof. intros H tr. apply (H tr tr). Qed.

Lemma follows_eq {A} (m : M A) (s s' : list call) :
  follows m s -> s = s' -> follows m s'.
Proof. now intros H <-. Qed.

Lemma follows_for_each {A} (api_client : APIClient) (f : A -> call)
  (l : list A) :
  follows (for_each (fun a => api api_client (f a)) l) (map f l).
Proof.
  induction l as [|a l IH]; simpl.
  - apply follows_ret.
  - apply (follows_bind _ _ [f a] (map f l)); [apply follows_api | auto].
Qed.

Section MethodCalls.

Variable b64decode : str -> option bytes.
Variable b64encode : bytes -> str.
Variable decode : bytes -> option str.
Variable tar_open : bytes -> option (list TarInfo).
Variable extractfile : bytes -> TarInfo -> option (option bytes).
Variable tar_bytes : list member -> bytes.
Variable api_client : APIClient.
Variable container : str.

Lemma create_container_follows :
  follows (create_container api_client)
          [CreateContainer (lit "zenoscave/tunnel-runner:latest") true].
Proof.
  unfold create_container.
  eapply follows_eq;
    [eapply follows_bind; [apply follows_api | intros _; apply follows_ret]|].
  reflexivity.
Qed.

Lemma eval_commands_follows (commands : list str) (source_base64 : option str) :
  follows (eval_commands b64decode decode api_client container commands
                         source_base64)
          (eval_script container commands
                       (tar_stream_of b64decode source_base64)).
Proof.
  unfold eval_commands, eval_script, tar_stream_of.
  apply follows_bind.
  - destruct (truthy source_base64); [|apply follows_ret].
    destruct (b64decode (get source_base64 [])) as [data|]; simpl.
    + intros tr.
      apply (follows_api api_client
               (PutArchive container (lit "/app/src") data) tr).
    + apply follows_bind_raise.
  - intros _.
    eapply follows_eq.
    + eapply follows_bind; [apply follows_api | intros _].
      eapply follows_bind; [apply follows_api | intros _].
      eapply follows_bind;
        [apply (follows_for_each api_client
                  (fun cmd => OsWrite (command_line cmd))) | intros _].
      eapply follows_bind; [apply follows_api | intros _].
      eapply follows_bind; [apply follows_api | intros _].
      eapply follows_bind; [apply follows_api | intros _].
      apply follows_read. intros t.
      destruct (decode (logs_bytes api_client t));
        [apply follows_ret | apply follows_raise].
    + unfold stream_of. rewrite map_map. reflexivity.
Qed.

Lemma retrieve_archive_base64_follows (d : dist_config) :
  follows (retrieve_archive_base64 b64encode tar_open extractfile tar_bytes api_client
                                   container d)
          (retrieve_script container d).
Proof.
  unfold retrieve_archive_base64, retrieve_script.
  destruct (get (artifacts d) []) as [|a l]; [apply follows_ret|].
  eapply follows_eq.
  - eapply follows_bind; [apply follows_api | intros _].
    eapply follows_bind;
      [apply (follows_read (fun t => ret (archive_chunks api_client t)));
       intros t; apply follows_ret | intros strm].
    eapply follows_bind;
      [destruct (tar_open (concat strm));
       [apply follows_ret | apply follows_raise] | intros ms].
    eapply follows_bind; [|intros members; apply follows_ret].
    destruct (extract_all extractfile (concat strm) _);
      [apply follows_ret | apply follows_raise].
  - reflexivity.
Qed.

End MethodCalls.

(** *** Order of the calls *)

Lemma before_split (a b : call -> bool) (pre post : list call) :
  existsb b pre = false -> existsb a pre = true -> existsb a post = false ->
  before a b (pre ++ post).
Proof.
  intros Hb Ha Hpost l1 y l2 E Hy.
  apply app_eq_app in E as [l [[-> E]|[-> E]]].
  - destruct l as [|z l].
    + rewrite app_nil_r in Ha. simpl in E. rewrite E. auto.
    + injection E as <- _. rewrite existsb_app in Hb. simpl in Hb.
      rewrite Hy in Hb. rewrite orb_true_r in Hb. discriminate.
  - subst post. rewrite existsb_app in *. rewrite Ha. split; [reflexivity|].
    now apply orb_false_elim in Hpost as [_ ->].
Qed.

Lemma before_prefix (a b : call -> bool) (l l' : list call) :
  prefix l l' -> before a b l' -> before a b l.
Proof.
  intros [r ->] H l1 y l2 -> Hy.
  destruct (H l1 y (l2 ++ r)) as [H1 H2];
    [now rewrite <- app_assoc | assumption|].
  split; [assumption|].
  change (y :: l2 ++ r) with ((y :: l2) ++ r) in H2.
  rewrite existsb_app in H2. now apply orb_false_elim in H2 as [-> _].
Qed.

Lemma existsb_map_write (P : call -> bool) (ws : list bytes) :
  (forall d, P (OsWrite d) = false) -> existsb P (map OsWrite ws) = false.
Proof.
  intros H. induction ws as [|w ws IH]; simpl; [reflexivity|].
  now rewrite H, IH.
Qed.

Lemma eval_script_order (container : str) (commands : list str) (data : bytes) :
  before is_put is_start (eval_script container commands (Some data)) /\
  before is_start is_write (eval_script container commands (Some data)).
Proof.
  unfold eval_script. split.
  - apply before_split; [reflexivity | reflexivity|].
    simpl. rewrite existsb_app, existsb_map_write by reflexivity. reflexivity.
  - apply (before_split is_start is_write
             [PutArchive container (lit "/app/src") data;
              StartContainer container; AttachSocket container]);
      [reflexivity | reflexivity|].
    rewrite existsb_app, existsb_map_write by reflexivity. reflexivity.
Qed.

Lemma eval_commands_undecodable (b64decode : str -> option bytes)
  (decode : bytes -> option str) (api_client : APIClient) (container : str)
  (commands : list str) (source_base64 : option str) (tr : list call) :
  truthy source_base64 = true ->
  b64decode (get source_base64 []) = None ->
  eval_commands b64decode decode api_client container commands source_base64 tr
  = (tr, Raise Base64Error).
Proof.
  intros Ht Hd. unfold eval_commands, bind. now rewrite Ht, Hd.
Qed.

(** *** What is written *)

Lemma replace_go_join_split (old new : str) (k : nat) (s : str) :
  replace_go old new k s = join new (split_go old k s).
Proof.
  revert k; induction s as [|c s IH]; intros k; simpl; [reflexivity|].
  destruct k; [|apply IH].
  destruct (startswith old (c :: s)).
  - rewrite join_cons by apply split_go_nonempty. simpl. now rewrite IH.
  - rewrite join_push by apply split_go_nonempty. now rewrite IH.
Qed.

(** [s.replace(old, new)] is [new.join(s.split(old))]. *)
Lemma replace_join_split (old new s : str) :
  old <> [] -> replace old new s = join new (split old s).
Proof.
  intros H. unfold replace. destruct old; [contradiction|].
  apply replace_go_join_split.
Qed.

Lemma writes_of_app (l1 l2 : list call) :
  writes_of (l1 ++ l2) = writes_of l1 ++ writes_of l2.
Proof. apply flat_map_app. Qed.

Lemma writes_of_map_write (ws : list bytes) : writes_of (map OsWrite ws) = ws.
Proof.
  induction ws as [|w ws IH]; simpl; [reflexivity | now rewrite IH].
Qed.

Lemma writes_of_eval_script (container : str) (commands : list str)
  (tar_stream : option bytes) :
  writes_of (eval_script container commands tar_stream) = stream_of commands.
Proof.
  unfold eval_script. rewrite writes_of_app.
  destruct tar_stream; simpl;
    now rewrite writes_of_app, writes_of_map_write, app_nil_r.
Qed.

(** C8. Whatever the host does, [eval_commands] writes the lines of the
    commands in the order of the request, and if it returns it has written
    them all: each command with the text between its line feeds joined by
    [" ; "], ended by a line feed, and after the last command the one line
    [exit].  The commands of the specification's example give the two lines
    it states. *)
Theorem C8_commands_streamed_in_order (b64decode : str -> option bytes)
  (decode : bytes -> option str) (api_client : APIClient) (container : str)
  (commands : list str) (source_base64 : option str) (tr : list call) :
  (exists done,
     fst (eval_commands b64decode decode api_client container commands
                        source_base64 tr) = tr ++ done /\
     prefix (writes_of done) (stream_of commands) /\
     (forall out,
        snd (eval_commands b64decode decode api_client container commands
                           source_base64 tr) = Ok out ->
        writes_of done = stream_of commands)) /\
  stream_of commands =
    map (fun cmd => join (lit " ; ") (split [LF] cmd) ++ [LF]) commands ++
    [lit "exit" ++ [LF]] /\
  stream_of [lit "echo a" ++ LF :: lit "echo b"] =
    [lit "echo a ; echo b" ++ [LF]; lit "exit" ++ [LF]].
Proof.
  split; [|split; [|reflexivity]].
  - destruct (eval_commands_follows b64decode decode api_client container
                commands source_base64 tr) as (done & E & [r P] & O).
    exists done. split; [assumption | split].
    + exists (writes_of r).
      now rewrite <- writes_of_app, <- P, writes_of_eval_script.
    + intros out Hout. rewrite (O out Hout). apply writes_of_eval_script.
  - unfold stream_of. rewrite map_app. f_equal.
    apply map_ext. intros cmd. unfold command_line.
    rewrite replace_join_split by discriminate. reflexivity.
Qed.

(** C8, at the specification's example, on a host no call of which raises. *)
Lemma C8_commands_streamed_in_order_witness :
  writes_of (fst (eval_commands id_codec id_codec quiet_client (lit "c0")
                    [lit "echo a" ++ LF :: lit "echo b"] None [])) =
    [lit "echo a ; echo b" ++ [LF]; lit "exit" ++ [LF]].
Proof.
  destruct (C8_commands_streamed_in_order id_codec id_codec quiet_client
              (lit "c0") [lit "echo a" ++ LF :: lit "echo b"] None [])
    as ((done & E & _ & O) & _ & Ex).
  rewrite E. change ([] ++ done) with done.
  rewrite (O (lit "[out] hi") eq_refl). exact Ex.
Defined.

(** *** How far the calls go *)

Lemma stops_ext {A} (api_client : APIClient) (m m' : M A)
  (script : list call) :
  (forall tr, m tr = m' tr) -> stops api_client m' script ->
  stops api_client m script.
Proof.
  intros E H tr. destruct (H tr) as (done & rest & H1 & H2 & H3).
  exists done, rest. now rewrite E.
Qed.

Lemma stops_quiet {A} (api_client : APIClient) (m : M A) :
  (forall tr, fst (m tr) = tr) -> stops api_client m [].
Proof.
  intros H tr. exists [], []. rewrite H.
  split; [reflexivity | split; [now rewrite app_nil_r | exact I]].
Qed.

Lemma stops_api_bind {A} (api_client : APIClient) (c : call)
  (f : unit -> M A) (script : list call) :
  (forall u, stops api_client (f u) script) ->
  stops api_client (bind (api api_client c) f) (c :: script).
Proof.
  intros H tr. unfold bind, api.
  destruct (raises api_client tr c) eqn:E.
  - exists [], (c :: script). simpl. rewrite app_nil_r. auto.
  - destruct (H tt (tr ++ [c])) as (done & rest & H1 & H2 & H3).
    exists (c :: done), rest.
    replace (tr ++ c :: done) with ((tr ++ [c]) ++ done)
      by now rewrite <- app_assoc.
    split; [now rewrite H1 | split; assumption].
Qed.

Lemma stops_for_each_bind {A B} (api_client : APIClient) (g : A -> call)
  (l : list A) (k : M B) (script : list call) :
  stops api_client k script ->
  stops api_client (bind (for_each (fun a => api api_client (g a)) l)
                         (fun _ => k))
        (map g l ++ script).
Proof.
  intros Hk. induction l as [|a l IH]; simpl.
  - intros tr. apply (Hk tr).
  - apply (stops_ext _ _
             (bind (api api_client (g a))
                   (fun _ => bind (for_each (fun a => api api_client (g a)) l)
                                  (fun _ => k)))).
    + intros tr. unfold bind, api.
      now destruct (raises api_client tr (g a)).
    + apply stops_api_bind. intros _. exact IH.
Qed.

(** With a source that decodes, [eval_commands] goes through its script as
    far as the client lets it. *)
Lemma eval_commands_stops (b64decode : str -> option bytes)
  (decode : bytes -> option str) (api_client : APIClient) (container : str)
  (commands : list str) (source_base64 : option str) (data : bytes) :
  truthy source_base64 = true ->
  b64decode (get source_base64 []) = Some data ->
  stops api_client
    (eval_commands b64decode decode api_client container commands
                   source_base64)
    (eval_script container commands (Some data)).
Proof.
  intros Ht Hd. unfold eval_commands, eval_script. rewrite Ht, Hd.
  apply (stops_ext _ _
           (bind (api api_client (PutArchive container (lit "/app/src") data))
              (fun _ =>
                 api api_client (StartContainer container) ;;;
                 api api_client (AttachSocket container) ;;;
                 for_each (fun cmd => api api_client (OsWrite (command_line cmd)))
                          (commands ++ [lit "exit"]) ;;;
                 api api_client SocketClose ;;;
                 api api_client (WaitContainer container) ;;;
                 api api_client (Logs container) ;;;
                 (fun tr => lift UnicodeDecodeError
                              (decode (logs_bytes api_client tr)) tr)))).
  - intros tr. reflexivity.
  - apply stops_api_bind. intros _.
    apply stops_api_bind. intros _.
    apply stops_api_bind. intros _.
    unfold stream_of. rewrite map_map.
    apply (stops_for_each_bind api_client
             (fun cmd => OsWrite (command_line cmd))).
    apply stops_api_bind. intros _.
    apply stops_api_bind. intros _.
    apply stops_api_bind. intros _.
    apply stops_quiet. intros tr.
    now destruct (decode (logs_bytes api_client tr)).
Qed.

(** C9. For a request with a source (a string that is not empty), whatever
    the host does, the archive is put in the container before the container
    is started, and the container is started before anything is written to
    its socket.  When the source decodes, the calls are those of one
    sequence (the unpacking, the start, the attachment, the writes, the
    closing, the wait and the reading of the log), made in this order up to
    the first call on which the host raises: on a host no call of which
    raises they are all made, and so they are whenever [eval_commands]
    returns. *)
Theorem C9_unpack_then_start_then_stream (b64decode : str -> option bytes)
  (decode : bytes -> option str) (api_client : APIClient) (container : str)
  (commands : list str) (source_base64 : str) (tr : list call) :
  source_base64 <> [] ->
  exists done,
    fst (eval_commands b64decode decode api_client container commands
                       (Some source_base64) tr) = tr ++ done /\
    before is_put is_start done /\
    before is_start is_write done /\
    (forall out,
       snd (eval_commands b64decode decode api_client container commands
                          (Some source_base64) tr) = Ok out ->
       exists data,
         b64decode source_base64 = Some data /\
         done = eval_script container commands (Some data)) /\
    (forall data,
       b64decode source_base64 = Some data ->
       exists rest,
         eval_script container commands (Some data) = done ++ rest /\
         match rest with
         | [] => True
         | c :: _ => raises api_client (tr ++ done) c = true
         end) /\
    (forall data,
       b64decode source_base64 = Some data ->
       (forall tr' c, raises api_client tr' c = false) ->
       done = eval_script container commands (Some data)).
Proof.
  intros Hsrc.
  assert (Ht : truthy (Some source_base64) = true)
    by (destruct source_base64; [contradiction | reflexivity]).
  destruct (b64decode source_base64) as [data|] eqn:Hd.
  - destruct (eval_commands_follows b64decode decode api_client container
                commands (Some source_base64) tr) as (done & E & P & O).
    unfold tar_stream_of in P, O. rewrite Ht in P, O. simpl in P, O.
    rewrite Hd in P, O.
    destruct (eval_script_order container commands data) as [B1 B2].
    destruct (eval_commands_stops b64decode decode api_client container
                commands (Some source_base64) data Ht Hd tr)
      as (done' & rest & S1 & S2 & S3).
    rewrite E in S2. apply app_inv_head in S2. subst done'.
    exists done. split; [assumption|].
    split; [now apply (before_prefix _ _ _ _ P)|].
    split; [now apply (before_prefix _ _ _ _ P)|].
    split; [intros out Hout; exists data;
            split; [reflexivity | now apply (O out)]|].
    split.
    + intros data' [= <-]. now exists rest.
    + intros data' [= <-] Hquiet. destruct rest as [|c rest].
      * now rewrite app_nil_r in S1.
      * rewrite Hquiet in S3. discriminate S3.
  - rewrite (eval_commands_undecodable b64decode decode api_client container
               commands (Some source_base64) tr Ht Hd).
    exists []. simpl. rewrite app_nil_r. split; [reflexivity|].
    split; [intros [|? ?] ? ? H; discriminate H|].
    split; [intros [|? ?] ? ? H; discriminate H|].
    split; [discriminate | split; discriminate].
Qed.

(** C9, at the request of the specification's example, on a host no call of
    which raises: the calls, all made, with the unpacking before the start
    and the start before the writes. *)
Lemma C9_unpack_then_start_then_stream_witness :
  fst (eval_commands id_codec id_codec quiet_client (lit "c0")
         [lit "echo a" ++ LF :: lit "echo b"] (Some (lit "c291cmNl")) []) =
    [PutArchive (lit "c0") (lit "/app/src") (lit "c291cmNl");
     StartContainer (lit "c0"); AttachSocket (lit "c0");
     OsWrite (lit "echo a ; echo b" ++ [LF]); OsWrite (lit "exit" ++ [LF]);
     SocketClose; WaitContainer (lit "c0"); Logs (lit "c0")] /\
  before is_put is_start
    (fst (eval_commands id_codec id_codec quiet_client (lit "c0")
            [lit "echo a" ++ LF :: lit "echo b"] (Some (lit "c291cmNl")) [])) /\
  before is_start is_write
    (fst (eval_commands id_codec id_codec quiet_client (lit "c0")
            [lit "echo a" ++ LF :: lit "echo b"] (Some (lit "c291cmNl")) [])).
Proof.
  destruct (C9_unpack_then_start_then_stream id_codec id_codec quiet_client
              (lit "c0") [lit "echo a" ++ LF :: lit "echo b"]
              (lit "c291cmNl") [])
    as (done & E & B1 & B2 & _ & _ & Q); [discriminate|].
  rewrite E. change ([] ++ done) with done.
  split; [|split; assumption].
  rewrite (Q (lit "c291cmNl") eq_refl (fun _ _ => eq_refl)). reflexivity.
Defined.

(** *** The removal of the container *)

Lemma no_remove_prefix (d s : list call) :
  prefix d s -> existsb is_remove s = false -> existsb is_remove d = false.
Proof.
  intros [r ->] H. rewrite existsb_app in H.
  now apply orb_false_elim in H as [-> _].
Qed.

Lemma stage_no_remove {A} (m : M A) (script tr : list call) :
  follows m script -> existsb is_remove script = false ->
  existsb is_remove tr = false -> existsb is_remove (fst (m tr)) = false.
Proof.
  intros Hm Hs Htr. destruct (Hm tr) as (d & -> & P & _).
  rewrite existsb_app, Htr. simpl. now apply (no_remove_prefix d script).
Qed.

Lemma eval_script_no_remove (container : str) (commands : list str)
  (tar_stream : option bytes) :
  existsb is_remove (eval_script container commands tar_stream) = false.
Proof.
  unfold eval_script. rewrite existsb_app.
  destruct tar_stream; simpl;
    now rewrite existsb_app, existsb_map_write by reflexivity.
Qed.

Lemma retrieve_script_no_remove (container : str) (d : dist_config) :
  existsb is_remove (retrieve_script container d) = false.
Proof. unfold retrieve_script. destruct (get (artifacts d) []); reflexivity. Qed.

Lemma create_container_id (api_client : APIClient) (tr : list call) (c : str) :
  snd (create_container api_client tr) = Ok c -> c = container_id api_client.
Proof.
  unfold create_container, bind, api, ret.
  destruct (raises api_client tr _); simpl; [discriminate|].
  now intros [= <-].
Qed.

(** C4, refuted as stated.  On a host whose container does not start, [run]
    creates the container and unpacks the source, the start raises, and the
    error leaves [run] with the container never removed. *)
Lemma C4_container_left_when_start_raises :
  run id_codec id_encode id_codec (one_member (lit "build/a.txt")) empty_file tar_names
      stuck_client echo_request [] =
    ([CreateContainer (lit "zenoscave/tunnel-runner:latest") true;
      PutArchive (lit "c0") (lit "/app/src") (lit "c291cmNl")],
     Raise (APIError (StartContainer (lit "c0")))) /\
  existsb is_remove
    (fst (run id_codec id_encode id_codec (one_member (lit "build/a.txt")) empty_file
              tar_names stuck_client echo_request [])) = false.
Proof. split; reflexivity. Qed.

(** C4, amended.  When [run] returns, the removal of the container it
    created is its last call and its only removal; when a call raises, the
    error leaves [run] and no container has been removed. *)
Theorem C4_container_removed_when_run_returns
  (b64decode : str -> option bytes) (b64encode : bytes -> str)
  (decode : bytes -> option str) (tar_open : bytes -> option (list TarInfo))
  (extractfile : bytes -> TarInfo -> option (option bytes))
  (tar_bytes : list member -> bytes) (api_client : APIClient)
  (request : request) :
  match snd (run b64decode b64encode decode tar_open extractfile tar_bytes api_client
                 request []) with
  | Ok _ =>
      exists pre,
        fst (run b64decode b64encode decode tar_open extractfile tar_bytes api_client
                 request []) =
          pre ++ [RemoveContainer (container_id api_client)] /\
        existsb is_remove pre = false
  | Raise _ =>
      existsb is_remove
        (fst (run b64decode b64encode decode tar_open extractfile tar_bytes api_client
                  request [])) = false
  end.
Proof.
  unfold run, bind.
  pose proof (stage_no_remove _ _ [] (create_container_follows api_client)
                eq_refl eq_refl) as H1.
  pose proof (create_container_id api_client []) as Hid.
  destruct (create_container api_client []) as [tr1 [c|e]]; simpl in *;
    [|assumption].
  rewrite (Hid c eq_refl). clear Hid.
  pose proof (stage_no_remove _ _ tr1
                (eval_commands_follows b64decode decode api_client
                   (container_id api_client) (get (commands request) [])
                   (source request))
                (eval_script_no_remove _ _ _) H1) as H2.
  destruct (eval_commands b64decode decode api_client
              (container_id api_client) (get (commands request) [])
              (source request) tr1) as [tr2 [lines|e]]; simpl in *;
    [|assumption].
  pose proof (stage_no_remove _ _ tr2
                (retrieve_archive_base64_follows b64encode tar_open extractfile tar_bytes
                   api_client (container_id api_client)
                   (get (dist request)
                        {| base_path := None; artifacts := None |}))
                (retrieve_script_no_remove _ _) H2) as H3.
  destruct (retrieve_archive_base64 b64encode tar_open extractfile tar_bytes api_client
              (container_id api_client)
              (get (dist request) {| base_path := None; artifacts := None |})
              tr2) as [tr3 [out|e]]; simpl in *; [|assumption].
  unfold api.
  destruct (raises api_client tr3 (RemoveContainer (container_id api_client)));
    simpl; [assumption|].
  exists tr3. split; [reflexivity | assumption].
Qed.

(** ** [retrieve_archive_base64] *)

Lemma filter_none {A} (f : A -> bool) (l : list A) :
  forallb (fun a => negb (f a)) l = true -> filter f l = [].
Proof.
  induction l as [|a l IH]; simpl; [reflexivity|].
  intros H. apply andb_prop in H as [Ha H].
  apply negb_true_iff in Ha. rewrite Ha. now apply IH.
Qed.

(** C2. With no pattern (the list is missing or empty) the result is [None]
    and no call is made.  With patterns, when the archive is fetched and
    read and none of its members is selected, the result is there: the
    encoding of the archive written with no member. *)
Theorem C2_absent_without_patterns_empty_without_match
  (b64encode : bytes -> str) (tar_open : bytes -> option (list TarInfo))
  (extractfile : bytes -> TarInfo -> option (option bytes))
  (tar_bytes : list member -> bytes) (api_client : APIClient)
  (container : str) (d : dist_config) (tr : list call) :
  (get (artifacts d) [] = [] ->
   retrieve_archive_base64 b64encode tar_open extractfile tar_bytes api_client container
                           d tr = (tr, Ok None)) /\
  (forall ms,
     get (artifacts d) [] <> [] ->
     raises api_client tr
       (GetArchive container
          (path_join (lit "/app/src") (get (base_path d) []))) = false ->
     tar_open
       (concat (archive_chunks api_client
          (tr ++ [GetArchive container
                    (path_join (lit "/app/src") (get (base_path d) []))])))
       = Some ms ->
     forallb (fun m => negb (selected (get (base_path d) [])
                                      (get (artifacts d) []) m)) ms = true ->
     retrieve_archive_base64 b64encode tar_open extractfile tar_bytes api_client container
                             d tr =
     (tr ++ [GetArchive container
               (path_join (lit "/app/src") (get (base_path d) []))],
      Ok (Some (b64encode (tar_bytes []))))).
Proof.
  unfold retrieve_archive_base64. split.
  - intros ->. reflexivity.
  - intros ms Hne Hok Hopen Hnone.
    destruct (get (artifacts d) []) as [|a l] eqn:Ea; [contradiction|].
    unfold bind, api, ret, lift. rewrite Hok. cbv beta iota zeta.
    rewrite Hopen. unfold ret. cbv beta iota.
    now rewrite (filter_none _ _ Hnone).
Qed.

(** C2, on a host no call of which raises: without patterns the result is
    absent; with the pattern [*.txt] and an archive whose one member is
    [build/b.log] it is the encoding of the empty archive. *)
Lemma C2_absent_without_patterns_empty_without_match_witness :
  retrieve_archive_base64 id_encode (one_member (lit "build/b.log")) empty_file tar_names
    quiet_client (lit "c0") no_config [] = ([], Ok None) /\
  retrieve_archive_base64 id_encode (one_member (lit "build/b.log")) empty_file tar_names
    quiet_client (lit "c0") txt_config [] =
    ([GetArchive (lit "c0") (lit "/app/src/build")], Ok (Some (lit "<end>"))).
Proof.
  split.
  - apply (C2_absent_without_patterns_empty_without_match id_encode
             (one_member (lit "build/b.log")) empty_file tar_names quiet_client
             (lit "c0") no_config []).
    reflexivity.
  - apply (proj2 (C2_absent_without_patterns_empty_without_match id_encode
                    (one_member (lit "build/b.log")) empty_file tar_names quiet_client
                    (lit "c0") txt_config [])
                 [file "build/b.log"]); try reflexivity.
    discriminate.
Defined.

(** *** [fnmatch] *)

Lemma translate_go_literal_app (pre rest : str) :
  literal pre = true ->
  translate_go 0 (pre ++ rest) = map GLit pre ++ translate_go 0 rest.
Proof.
  induction pre as [|c pre IH]; simpl; intros H; [reflexivity|].
  apply andb_prop in H as [Hc H]. apply negb_true_iff in Hc.
  apply orb_false_elim in Hc as [Hc H3]. apply orb_false_elim in Hc as [H1 H2].
  rewrite H1, H2, H3. now rewrite IH.
Qed.

Lemma translate_literal (p : str) :
  literal p = true -> translate p = map GLit p.
Proof.
  intros H. unfold translate. rewrite <- (app_nil_r p) at 1.
  rewrite translate_go_literal_app by assumption. apply app_nil_r.
Qed.

Lemma translate_literal_star (pre suf : str) :
  literal pre = true -> literal suf = true ->
  translate (pre ++ "*" :: suf) = map GLit pre ++ GStar :: map GLit suf.
Proof.
  intros Hp Hs. unfold translate.
  rewrite translate_go_literal_app by assumption. f_equal.
  change (translate_go 0 ("*" :: suf)) with (GStar :: translate_go 0 suf).
  f_equal. now apply translate_literal.
Qed.

Lemma glob_match_nil (s : str) : glob_match [] s = true <-> s = [].
Proof. destruct s; simpl; split; congruence. Qed.

Lemma glob_match_lits (p : str) (g : list glob) (s : str) :
  glob_match (map GLit p ++ g) s = true <->
  exists r, s = p ++ r /\ glob_match g r = true.
Proof.
  revert s; induction p as [|c p IH]; intros s; cbn [map app].
  - split; [intros H; now exists s | now intros (r & -> & H)].
  - destruct s as [|a s]; cbn [glob_match].
    + split; [discriminate | intros (r & H & _); discriminate].
    + split.
      * intros H. apply andb_prop in H as [Ha H].
        apply Ascii.eqb_eq in Ha. subst a.
        apply IH in H as (r & -> & H). now exists r.
      * intros (r & E & H). injection E as -> ->.
        rewrite Ascii.eqb_refl. apply IH. now exists r.
Qed.

Lemma glob_match_star_cons (g : list glob) (c : ascii) (s : str) :
  glob_match (GStar :: g) (c :: s) =
  glob_match g (c :: s) || glob_match (GStar :: g) s.
Proof. reflexivity. Qed.

(** A star matches any run of characters. *)
Lemma glob_match_star (g : list glob) (s : str) :
  glob_match (GStar :: g) s = true <->
  exists s1 s2, s = s1 ++ s2 /\ glob_match g s2 = true.
Proof.
  induction s as [|c s IH].
  - cbn [glob_match]. rewrite orb_false_r. split.
    + intros H. now exists [], [].
    + intros (s1 & s2 & E & H). symmetry in E.
      apply app_eq_nil in E as [_ ->]. exact H.
  - rewrite glob_match_star_cons. split.
    + intros H. apply orb_prop in H as [H|H].
      * now exists [], (c :: s).
      * apply IH in H as (s1 & s2 & -> & H). now exists (c :: s1), s2.
    + intros (s1 & s2 & E & H). apply orb_true_iff.
      destruct s1 as [|a s1]; simpl in E.
      * left. now subst s2.
      * right. injection E as _ ->. apply IH. now exists s1, s2.
Qed.

Lemma fnmatch_literal (p name : str) :
  literal p = true -> (fnmatch name p = true <-> name = p).
Proof.
  intros H. unfold fnmatch. rewrite translate_literal by assumption.
  rewrite <- (app_nil_r (map GLit p)), glob_match_lits. split.
  - intros (r & -> & Hr). apply glob_match_nil in Hr. subst r.
    apply app_nil_r.
  - intros ->. exists []. now rewrite app_nil_r.
Qed.

Lemma fnmatch_literal_star (pre suf name : str) :
  literal pre = true -> literal suf = true ->
  (fnmatch name (pre ++ "*" :: suf) = true <->
   exists mid, name = pre ++ mid ++ suf).
Proof.
  intros Hp Hs. unfold fnmatch.
  rewrite translate_literal_star by assumption.
  rewrite glob_match_lits. split.
  - intros (r & -> & H). apply glob_match_star in H as (s1 & s2 & -> & H).
    rewrite <- (app_nil_r (map GLit suf)) in H.
    apply glob_match_lits in H as (r & -> & Hr).
    apply glob_match_nil in Hr. subst r. rewrite app_nil_r. now exists s1.
  - intros (mid & ->). exists (mid ++ suf). split; [reflexivity|].
    apply glob_match_star. exists mid, suf. split; [reflexivity|].
    rewrite <- (app_nil_r (map GLit suf)). apply glob_match_lits.
    exists []. now rewrite app_nil_r.
Qed.

(** C3, refuted as stated.  With the base path [build] and the pattern
    [*.txt], [fnmatch] selects the member [build/sub/a.txt]: its star runs
    over the slash.  Matching within one path segment does not select it. *)
Lemma C3_star_crosses_path_segments :
  selected (lit "build") [lit "*.txt"] (file "build/sub/a.txt") = true /\
  selected_segment (lit "build") [lit "*.txt"] (file "build/sub/a.txt") = false.
Proof. split; reflexivity. Qed.

(** C3, amended.  A member is kept if and only if its name matches, for
    [fnmatch], some pattern joined to the base path.  This matching compares
    characters as they are, so a pattern with no special character matches
    the name equal to it and no other; a star matches any run of characters,
    slashes included, so it is not held within one path segment. *)
Theorem C3_members_selected_by_fnmatch (base_path : str)
  (artifacts : list str) (tar_stream : list TarInfo) :
  (forall m,
     In m (filter (selected base_path artifacts) tar_stream) <->
     In m tar_stream /\
     exists artifact,
       In artifact artifacts /\
       fnmatch (name m) (path_join base_path artifact) = true) /\
  (forall p name, literal p = true -> (fnmatch name p = true <-> name = p)) /\
  (forall pre suf name,
     literal pre = true -> literal suf = true ->
     (fnmatch name (pre ++ "*" :: suf) = true <->
      exists mid, name = pre ++ mid ++ suf)).
Proof.
  split; [|split].
  - intros m. rewrite filter_In. unfold selected. now rewrite existsb_exists.
  - intros p name. apply fnmatch_literal.
  - intros pre suf name. apply fnmatch_literal_star.
Qed.

(** C3, amended, at the tree of the specification's example with one more
    member below a directory: [build/a.txt] and [build/sub/a.txt] are kept,
    [build/b.log] and [build/A.TXT] are not. *)
Lemma C3_members_selected_by_fnmatch_witness :
  filter (selected (lit "build") [lit "*.txt"])
         [file "build/a.txt"; file "build/b.log"; file "build/A.TXT";
          file "build/sub/a.txt"] =
    [file "build/a.txt"; file "build/sub/a.txt"] /\
  fnmatch (lit "build/sub/a.txt") (lit "build/" ++ "*" :: lit ".txt") = true /\
  fnmatch (lit "build/A.TXT") (lit "build/a.txt") = false.
Proof.
  pose proof (C3_members_selected_by_fnmatch (lit "build") [lit "*.txt"]
                [file "build/a.txt"; file "build/b.log"; file "build/A.TXT";
                 file "build/sub/a.txt"]) as (_ & Hlit & Hstar).
  split; [reflexivity | split].
  - apply (Hstar (lit "build/") (lit ".txt") (lit "build/sub/a.txt"));
      [reflexivity | reflexivity|].
    now exists (lit "sub/a").
  - destruct (fnmatch (lit "build/A.TXT") (lit "build/a.txt")) eqn:E;
      [|reflexivity].
    apply (Hlit (lit "build/a.txt") (lit "build/A.TXT")) in E;
      [discriminate E | reflexivity].
Defined.

(** ** The life of a request *)

Lemma stage_returns {A} (m : M A) (script tr tr' : list call) (a : A) :
  follows m script -> m tr = (tr', Ok a) -> tr' = tr ++ script.
Proof.
  intros Hm E. destruct (Hm tr) as (d & Hd & _ & O).
  rewrite E in Hd, O. simpl in *. now rewrite <- (O a eq_refl).
Qed.

(** When [run] returns, its calls were, in this order: the creation of the
    container, the calls of [eval_commands], the fetching of the archive if
    there are patterns, and the removal of the container. *)
Theorem run_calls_when_it_returns
  (b64decode : str -> option bytes) (b64encode : bytes -> str)
  (decode : bytes -> option str) (tar_open : bytes -> option (list TarInfo))
  (extractfile : bytes -> TarInfo -> option (option bytes))
  (tar_bytes : list member -> bytes) (api_client : APIClient)
  (request : request) (out : response) :
  snd (run b64decode b64encode decode tar_open extractfile tar_bytes api_client
           request []) = Ok out ->
  fst (run b64decode b64encode decode tar_open extractfile tar_bytes api_client
           request []) =
    CreateContainer (lit "zenoscave/tunnel-runner:latest") true ::
    eval_script (container_id api_client) (get (commands request) [])
                (tar_stream_of b64decode (source request)) ++
    retrieve_script (container_id api_client)
      (get (dist request) {| base_path := None; artifacts := None |}) ++
    [RemoveContainer (container_id api_client)].
Proof.
  unfold run, bind.
  pose proof (create_container_id api_client []) as Hid.
  destruct (create_container api_client []) as [tr1 [c|e]] eqn:E1;
    [|discriminate].
  simpl in Hid. rewrite (Hid c eq_refl). clear Hid.
  apply (stage_returns _ _ _ _ _ (create_container_follows api_client)) in E1.
  destruct (eval_commands b64decode decode api_client
              (container_id api_client) (get (commands request) [])
              (source request) tr1) as [tr2 [lines|e]] eqn:E2;
    [|discriminate].
  apply (stage_returns _ _ _ _ _
           (eval_commands_follows b64decode decode api_client _ _ _)) in E2.
  destruct (retrieve_archive_base64 b64encode tar_open extractfile tar_bytes api_client
              (container_id api_client)
              (get (dist request) {| base_path := None; artifacts := None |})
              tr2) as [tr3 [tarball|e]] eqn:E3; [|discriminate].
  apply (stage_returns _ _ _ _ _
           (retrieve_archive_base64_follows b64encode tar_open extractfile tar_bytes
              api_client _ _)) in E3.
  unfold api.
  destruct (raises api_client tr3 (RemoveContainer (container_id api_client)));
    [discriminate|].
  intros _. simpl. subst tr3 tr2 tr1. simpl. now rewrite <- app_assoc.
Qed.

(** The calls of the request of the specification's streaming example, on a
    host no call of which raises. *)
Lemma run_calls_when_it_returns_witness :
  fst (run id_codec id_encode id_codec (one_member (lit "build/a.txt")) empty_file
           tar_names quiet_client echo_request []) =
    [CreateContainer (lit "zenoscave/tunnel-runner:latest") true;
     PutArchive (lit "c0") (lit "/app/src") (lit "c291cmNl");
     StartContainer (lit "c0"); AttachSocket (lit "c0");
     OsWrite (lit "echo a ; echo b" ++ [LF]); OsWrite (lit "exit" ++ [LF]);
     SocketClose; WaitContainer (lit "c0"); Logs (lit "c0");
     GetArchive (lit "c0") (lit "/app/src/build");
     RemoveContainer (lit "c0")].
Proof.
  apply (run_calls_when_it_returns id_codec id_encode id_codec
           (one_member (lit "build/a.txt")) empty_file tar_names quiet_client
           echo_request
           {| results := [[(lit "out", [lit "hi"])]];
              output := Some (lit "build/a.txt" ++ LF :: lit "<end>") |}).
  reflexivity.
Defined.

(** Every record [parse_output] returns has its tags distinct and free of
    closing brackets and line feeds, a value for each tag, no line feed in a
    value, and a tag that is not the empty string. *)
Theorem parse_output_records_well_formed (output : str) :
  Forall (fun c =>
            NoDup (map fst c) /\
            Forall (fun kv =>
                      ~ In "]" (fst kv) /\ ~ In LF (fst kv) /\
                      snd kv <> [] /\ Forall (fun v => ~ In LF v) (snd kv)) c /\
            any c = true)
         (parse_output output).
Proof. exact (parse_output_wf output). Qed.

(** * Further properties *)

(** ** Texts cut at a point no occurrence runs over *)

Lemma startswith_app_r (p a r : str) :
  startswith p a = true -> startswith p (a ++ r) = true.
Proof.
  intros H. apply startswith_iff in H as [x ->].
  apply startswith_iff. exists (x ++ r). now rewrite app_assoc.
Qed.

(** [replace_go] over a text cut where no occurrence of [old] runs over the
    cut. *)
Lemma replace_go_app (old new a rest : str) (k : nat) :
  (forall a1 a2, a = a1 ++ a2 ->
     startswith old (a2 ++ rest) = true -> a2 <> [] ->
     startswith old a2 = true) ->
  k <= length a ->
  replace_go old new k (a ++ rest) =
  replace_go old new k a ++ replace_go old new 0 rest.
Proof.
  revert k; induction a as [|c a IH]; intros k Hcut Hk.
  - simpl in Hk. now replace k with 0 by lia.
  - assert (Hcut' : forall a1 a2, a = a1 ++ a2 ->
              startswith old (a2 ++ rest) = true -> a2 <> [] ->
              startswith old a2 = true).
    { intros a1 a2 E. apply (Hcut (c :: a1) a2). now rewrite E. }
    rewrite <- app_comm_cons. cbn [replace_go].
    destruct k as [|k]; [|apply IH; [assumption | simpl in Hk; lia]].
    rewrite app_comm_cons.
    destruct (startswith old (c :: a)) eqn:E.
    + rewrite (startswith_app_r _ _ rest E). rewrite <- app_assoc. f_equal.
      apply IH; [assumption|].
      apply startswith_length in E. simpl in E. lia.
    + destruct (startswith old ((c :: a) ++ rest)) eqn:E'.
      * rewrite (Hcut [] (c :: a) eq_refl E') in E; discriminate.
      * simpl. f_equal. apply IH; [assumption | lia].
Qed.

Lemma push_app (c : ascii) (l1 l2 : list str) :
  l1 <> [] -> push c (l1 ++ l2) = push c l1 ++ l2.
Proof. destruct l1; [contradiction | reflexivity]. Qed.

(** [split] over a text cut at an occurrence of the separator that no other
    occurrence runs into. *)
Lemma split_app_sep (sep a y : str) :
  sep <> [] ->
  (forall a1 a2, a = a1 ++ a2 ->
     startswith sep (a2 ++ sep ++ y) = true -> a2 <> [] ->
     startswith sep a2 = true) ->
  split sep (a ++ sep ++ y) = split sep a ++ split sep y.
Proof.
  intros Hsep.
  remember (length a) as n eqn:Hn. revert a Hn.
  induction n as [n IH] using lt_wf_ind. intros a Hn Hcut.
  destruct a as [|c a].
  - rewrite app_nil_l, split_nil. now apply split_sep_app.
  - destruct (startswith sep (c :: a)) eqn:E.
    + apply startswith_iff in E as [r Hr]. rewrite Hr, <- app_assoc.
      rewrite !split_sep_app by assumption. simpl. f_equal.
      apply (IH (length r)); [|reflexivity|].
      * subst n. rewrite Hr, length_app.
        destruct sep; [contradiction | simpl; lia].
      * intros a1 a2 E. apply (Hcut (sep ++ a1) a2).
        now rewrite Hr, E, app_assoc.
    + rewrite <- app_comm_cons, split_miss.
      * rewrite (split_miss _ _ _ E).
        rewrite (IH (length a)); [|subst n; simpl; lia | reflexivity|].
        -- apply push_app, split_go_nonempty.
        -- intros a1 a2 E'. apply (Hcut (c :: a1) a2). now rewrite E'.
      * destruct (startswith sep (c :: a ++ sep ++ y)) eqn:E'; [|reflexivity].
        rewrite (Hcut [] (c :: a) eq_refl E') in E; discriminate.
Qed.

Lemma divider_cut (a2 y : str) :
  startswith divider (a2 ++ divider ++ y) = true -> a2 <> [] ->
  startswith divider a2 = true.
Proof.
  intros H Hne. apply startswith_divider in H as [r Hr].
  apply startswith_divider.
  destruct a2 as [|c [|x [|z [|w a2]]]]; try discriminate Hr;
    [contradiction|].
  injection Hr as -> -> -> -> _. now exists a2.
Qed.

Lemma crlf_cut (a2 rest : str) :
  (forall r, rest <> LF :: r) ->
  startswith [CR; LF] (a2 ++ rest) = true -> a2 <> [] ->
  startswith [CR; LF] a2 = true.
Proof.
  intros Hrest H Hne. apply startswith_iff in H as [r Hr].
  apply startswith_iff.
  destruct a2 as [|c [|x a2]]; [contradiction | |].
  - injection Hr as _ Hr. now apply Hrest in Hr.
  - injection Hr as -> -> _. now exists a2.
Qed.

Lemma fold_add_block_acc (bs : list str) (acc : list command) :
  fold_left add_block bs acc = acc ++ fold_left add_block bs [].
Proof.
  revert acc; induction bs as [|b bs IH]; intros acc; simpl.
  - now rewrite app_nil_r.
  - rewrite IH, (IH (add_block [] b)). unfold add_block.
    destruct (any (command_of b)); simpl; now rewrite <- ?app_assoc.
Qed.

Lemma blocks_app_divider (a b : str) :
  blocks (a ++ divider ++ b) = blocks a ++ blocks b.
Proof.
  unfold blocks, replace.
  rewrite replace_go_app; [| |lia].
  - change (replace_go [CR; LF] [LF] 0 (divider ++ b))
      with (divider ++ replace_go [CR; LF] [LF] 0 b).
    apply split_app_sep; [discriminate|].
    intros a1 a2 _. apply divider_cut.
  - intros a1 a2 _. apply crlf_cut. intros r H. discriminate H.
Qed.

(** The divider separates records: the records of two texts joined by a
    divider are the records of the first followed by those of the second. *)
Theorem parse_output_app_divider (a b : str) :
  parse_output (a ++ divider ++ b) = parse_output a ++ parse_output b.
Proof.
  unfold parse_output. rewrite blocks_app_divider, fold_left_app.
  apply fold_add_block_acc.
Qed.

(** ** Line endings *)

Lemma split_no_occurrence_whole (sep s : str) :
  occurs sep s = false -> split sep s = [s].
Proof.
  induction s as [|c s IH]; intros H; [reflexivity|].
  rewrite occurs_cons in H. apply orb_false_elim in H as [Hc Hs].
  rewrite split_miss by assumption. now rewrite IH.
Qed.

Lemma occurs_crlf_without_lf (s : str) :
  ~ In LF s -> occurs [CR; LF] s = false.
Proof.
  induction s as [|c s IH]; intros H; [reflexivity|].
  rewrite occurs_cons, IH by (intros H'; apply H; now right).
  rewrite orb_false_r.
  destruct (startswith [CR; LF] (c :: s)) eqn:E; [|reflexivity].
  apply startswith_iff in E as [r Hr]. injection Hr as _ ->.
  exfalso. apply H. simpl. auto.
Qed.

Lemma occurs_crlf_without_cr (s : str) :
  ~ In CR s -> occurs [CR; LF] s = false.
Proof.
  induction s as [|c s IH]; intros H; [reflexivity|].
  rewrite occurs_cons, IH by (intros H'; apply H; now right).
  rewrite orb_false_r.
  destruct (startswith [CR; LF] (c :: s)) eqn:E; [|reflexivity].
  apply startswith_iff in E as [r Hr]. injection Hr as -> _.
  exfalso. apply H. now left.
Qed.

Lemma split_crlf_join (lines : list str) :
  lines <> [] -> Forall (fun l => ~ In LF l) lines ->
  split [CR; LF] (join [CR; LF] lines) = lines.
Proof.
  intros Hne H. induction H as [|x lines Hx Hlines IH]; [contradiction|].
  destruct lines as [|x2 lines].
  - simpl. now apply split_no_occurrence_whole, occurs_crlf_without_lf.
  - rewrite join_cons by discriminate.
    rewrite split_app_sep; [|discriminate|].
    + rewrite IH by discriminate.
      now rewrite split_no_occurrence_whole
        by now apply occurs_crlf_without_lf.
    + intros a1 a2 _. apply crlf_cut. intros r Hr. discriminate Hr.
Qed.

Lemma in_join (c : ascii) (sep : str) (lines : list str) :
  In c (join sep lines) -> In c sep \/ exists l, In l lines /\ In c l.
Proof.
  induction lines as [|x lines IH]; [contradiction|].
  destruct lines as [|x2 lines].
  - simpl. intros H. right. exists x. auto.
  - rewrite join_cons by discriminate. intros H.
    apply in_app_or in H as [H|H]; [right; exists x; simpl; auto|].
    apply in_app_or in H as [H|H]; [now left|].
    destruct (IH H) as [H'|(l & Hl & Hc)]; [now left|].
    right. exists l. split; [now right | assumption].
Qed.

(** Lines ended by a carriage return and a line feed parse as the same
    lines ended by a line feed alone. *)
Theorem parse_output_crlf_line_endings (lines : list str) :
  Forall (fun l => ~ In LF l /\ ~ In CR l) lines ->
  parse_output (join [CR; LF] lines) = parse_output (join [LF] lines).
Proof.
  intros H. destruct lines as [|x lines]; [reflexivity|].
  unfold parse_output, blocks. f_equal. f_equal.
  rewrite !replace_join_split by discriminate.
  rewrite split_crlf_join;
    [|discriminate | eapply Forall_impl; [|exact H]; now intros l [Hl _]].
  rewrite split_no_occurrence_whole; [reflexivity|].
  apply occurs_crlf_without_cr. intros Hin.
  apply in_join in Hin as [[Hin|[]]|(l & Hl & Hc)]; [discriminate Hin|].
  rewrite Forall_forall in H. now apply (H l Hl).
Qed.

(** CR LF endings and LF endings of three lines, a divider among them. *)
Lemma parse_output_crlf_line_endings_witness :
  parse_output (join [CR; LF] [lit "[out] a"; lit "---"; lit "[err] b"; []]) =
  parse_output (join [LF] [lit "[out] a"; lit "---"; lit "[err] b"; []]).
Proof.
  apply (parse_output_crlf_line_endings
           [lit "[out] a"; lit "---"; lit "[err] b"; []]).
  repeat constructor; simpl; intros H;
    repeat (destruct H as [H|H]; [discriminate H|]); exact H.
Defined.

(** ** Which blocks give a record, and with which tags *)

Lemma any_fold_add_line (lines : list str) (c : command) :
  any (fold_left add_line lines c) = any c || existsb named_tag lines.
Proof.
  revert c; induction lines as [|line lines IH]; intros c; simpl.
  - now rewrite orb_false_r.
  - rewrite IH. unfold add_line, named_tag at 2.
    destruct (re_match line) as [[k v]|]; [|reflexivity].
    rewrite any_append_value. now rewrite orb_assoc.
Qed.

Lemma fold_add_block_filter (bs : list str) (acc : list command) :
  fold_left add_block bs acc =
  acc ++ map command_of (filter has_named_tag bs).
Proof.
  revert acc; induction bs as [|b bs IH]; intros acc; simpl.
  - now rewrite app_nil_r.
  - rewrite IH. unfold add_block, has_named_tag at 2, command_of at 1.
    rewrite any_fold_add_line. simpl.
    destruct (existsb named_tag (split [LF] b)); simpl;
      [now rewrite <- app_assoc | reflexivity].
Qed.

(** The records are those of the blocks that have a line tagged with a tag
    that is not empty, in the order of the blocks; the other blocks give
    nothing. *)
Theorem parse_output_records_of_named_blocks (output : str) :
  parse_output output =
  map command_of (filter has_named_tag (blocks output)).
Proof. unfold parse_output. apply (fold_add_block_filter (blocks output) []). Qed.

Lemma keys_append_value_add_key (k v : str) (c : command) :
  map fst (append_value k v c) = add_key (map fst c) k.
Proof.
  unfold add_key. induction c as [|[k' vs] c IH]; simpl; [reflexivity|].
  destruct (str_eqb k' k); simpl; [reflexivity|].
  rewrite IH. now destruct (existsb (fun k0 => str_eqb k0 k) (map fst c)).
Qed.

Lemma keys_fold_add_line (lines : list str) (c : command) :
  map fst (fold_left add_line lines c) =
  fold_left add_key (tags_of lines) (map fst c).
Proof.
  revert c; induction lines as [|line lines IH]; intros c; simpl;
    [reflexivity|].
  rewrite IH, fold_left_app. unfold add_line.
  destruct (re_match line) as [[k v]|]; [|reflexivity].
  simpl. now rewrite keys_append_value_add_key.
Qed.

(** The tags of a record are the tags of the block's tagged lines, each
    once, in the order in which they first appear. *)
Theorem command_of_keys_in_order_of_first_line (command_text : str) :
  map fst (command_of command_text) =
  first_seen (tags_of (split [LF] command_text)).
Proof. unfold command_of, first_seen. apply keys_fold_add_line. Qed.

(** ** The lines written to the socket *)

Lemma join_without (c : ascii) (sep : str) (pieces : list str) :
  ~ In c sep -> Forall (fun p => ~ In c p) pieces -> ~ In c (join sep pieces).
Proof.
  intros Hsep H Hin. apply in_join in Hin as [Hin|(l & Hl & Hc)];
    [contradiction|].
  rewrite Forall_forall in H. now apply (H l Hl).
Qed.

(** Every command is written as one line: the line feed that ends it is
    the only one, whatever line feeds the command holds; a command that
    holds none is written as it is. *)
Theorem command_line_is_one_line (cmd : str) :
  (exists x, command_line cmd = x ++ [LF] /\ ~ In LF x) /\
  (~ In LF cmd -> command_line cmd = cmd ++ [LF]).
Proof.
  unfold command_line. rewrite replace_join_split by discriminate. split.
  - eexists. split; [reflexivity|].
    apply join_without; [|apply split_lf_no_lf].
    simpl. intros H. repeat (destruct H as [H|H]; [discriminate H|]).
    exact H.
  - intros H. rewrite split_no_occurrence_whole; [reflexivity|].
    induction cmd as [|c cmd IH]; [reflexivity|].
    rewrite occurs_cons, IH by (intros H'; apply H; now right).
    rewrite orb_false_r. cbn [startswith].
    destruct (Ascii.eqb LF c) eqn:E; [|reflexivity].
    apply Ascii.eqb_eq in E. exfalso. apply H. now left.
Qed.

(** A command of one line is written with a line feed after it. *)
Lemma command_line_is_one_line_witness :
  command_line (lit "make all") = lit "make all" ++ [LF].
Proof.
  apply (proj2 (command_line_is_one_line (lit "make all"))).
  simpl. intros H. repeat (destruct H as [H|H]; [discriminate H|]). exact H.
Defined.

(** ** More on the order of the calls *)

Lemma existsb_stream_write (commands : list str) :
  existsb is_write (map OsWrite (stream_of commands)) = true.
Proof.
  unfold stream_of. rewrite map_app, map_app, existsb_app. simpl.
  apply orb_true_r.
Qed.

Lemma eval_script_late_order (container : str) (commands : list str)
  (tar_stream : option bytes) :
  before is_start is_write (eval_script container commands tar_stream) /\
  before is_write is_close (eval_script container commands tar_stream) /\
  before is_close is_wait (eval_script container commands tar_stream) /\
  before is_wait is_logs (eval_script container commands tar_stream).
Proof.
  unfold eval_script.
  set (put := match tar_stream with
              | Some data => [PutArchive container (lit "/app/src") data]
              | None => []
              end).
  assert (Hput : forall P, (forall c p d, P (PutArchive c p d) = false) ->
                           existsb P put = false).
  { intros P HP. unfold put. destruct tar_stream; simpl;
      [now rewrite HP | reflexivity]. }
  set (ws := map OsWrite (stream_of commands)).
  split; [|split; [|split]].
  - replace (put ++ StartContainer container :: AttachSocket container ::
               ws ++ [SocketClose; WaitContainer container; Logs container])
      with ((put ++ [StartContainer container; AttachSocket container]) ++
            ws ++ [SocketClose; WaitContainer container; Logs container])
      by now rewrite <- app_assoc.
    apply before_split.
    + rewrite existsb_app, Hput by reflexivity. reflexivity.
    + rewrite existsb_app. simpl. apply orb_true_r.
    + unfold ws. now rewrite existsb_app, existsb_map_write.
  - replace (put ++ StartContainer container :: AttachSocket container ::
               ws ++ [SocketClose; WaitContainer container; Logs container])
      with ((put ++ StartContainer container :: AttachSocket container :: ws)
            ++ [SocketClose; WaitContainer container; Logs container])
      by now rewrite <- app_assoc.
    apply before_split.
    + rewrite existsb_app, Hput by reflexivity. simpl.
      unfold ws. now apply existsb_map_write.
    + rewrite existsb_app. simpl. unfold ws.
      rewrite existsb_stream_write. apply orb_true_r.
    + reflexivity.
  - replace (put ++ StartContainer container :: AttachSocket container ::
               ws ++ [SocketClose; WaitContainer container; Logs container])
      with ((put ++ StartContainer container :: AttachSocket container ::
               ws ++ [SocketClose])
            ++ [WaitContainer container; Logs container])
      by (rewrite <- app_assoc; simpl; now rewrite <- app_assoc).
    apply before_split.
    + rewrite existsb_app, Hput by reflexivity. simpl.
      unfold ws. now rewrite existsb_app, existsb_map_write.
    + rewrite existsb_app. simpl. rewrite existsb_app. simpl.
      now rewrite !orb_true_r.
    + reflexivity.
  - replace (put ++ StartContainer container :: AttachSocket container ::
               ws ++ [SocketClose; WaitContainer container; Logs container])
      with ((put ++ StartContainer container :: AttachSocket container ::
               ws ++ [SocketClose; WaitContainer container])
            ++ [Logs container])
      by (rewrite <- app_assoc; simpl; now rewrite <- app_assoc).
    apply before_split.
    + rewrite existsb_app, Hput by reflexivity. simpl.
      unfold ws. now rewrite existsb_app, existsb_map_write.
    + rewrite existsb_app. simpl. rewrite existsb_app. simpl.
      now rewrite !orb_true_r.
    + reflexivity.
Qed.

(** Whatever the source and whatever the host does, nothing is written
    before the container is started, the socket is closed after the last
    write and only then, the wait comes after the closing and the log is
    read after the wait. *)
Theorem eval_commands_write_close_wait_logs (b64decode : str -> option bytes)
  (decode : bytes -> option str) (api_client : APIClient) (container : str)
  (commands : list str) (source_base64 : option str) (tr : list call) :
  exists done,
    fst (eval_commands b64decode decode api_client container commands
                       source_base64 tr) = tr ++ done /\
    before is_start is_write done /\
    before is_write is_close done /\
    before is_close is_wait done /\
    before is_wait is_logs done.
Proof.
  destruct (eval_commands_follows b64decode decode api_client container
              commands source_base64 tr) as (done & E & P & _).
  destruct (eval_script_late_order container commands
              (tar_stream_of b64decode source_base64))
    as (B1 & B2 & B3 & B4).
  exists done. split; [assumption|].
  split; [now apply (before_prefix _ _ _ _ P)|].
  split; [now apply (before_prefix _ _ _ _ P)|].
  split; now apply (before_prefix _ _ _ _ P).
Qed.

(** Without a source, missing or empty, the archive is never unpacked: the
    calls are the first of those that begin with the start of the
    container. *)
Theorem eval_commands_without_source (b64decode : str -> option bytes)
  (decode : bytes -> option str) (api_client : APIClient) (container : str)
  (commands : list str) (source_base64 : option str) (tr : list call) :
  truthy source_base64 = false ->
  exists done,
    fst (eval_commands b64decode decode api_client container commands
                       source_base64 tr) = tr ++ done /\
    existsb is_put done = false /\
    prefix done (StartContainer container :: AttachSocket container ::
                 map OsWrite (stream_of commands) ++
                 [SocketClose; WaitContainer container; Logs container]).
Proof.
  intros Ht.
  destruct (eval_commands_follows b64decode decode api_client container
              commands source_base64 tr) as (done & E & P & _).
  unfold tar_stream_of in P. rewrite Ht in P.
  exists done. split; [assumption | split; [|exact P]].
  destruct P as [r Hr]. unfold eval_script in Hr. simpl in Hr.
  assert (H : existsb is_put (done ++ r) = false).
  { rewrite <- Hr. simpl.
    now rewrite existsb_app, existsb_map_write. }
  rewrite existsb_app in H. now apply orb_false_elim in H as [-> _].
Qed.

(** A request whose source is the empty string, on a host no call of which
    raises. *)
Lemma eval_commands_without_source_witness :
  exists done,
    fst (eval_commands id_codec id_codec quiet_client (lit "c0")
           [lit "ls"] (Some []) []) = [] ++ done /\
    existsb is_put done = false /\
    prefix done (StartContainer (lit "c0") :: AttachSocket (lit "c0") ::
                 map OsWrite (stream_of [lit "ls"]) ++
                 [SocketClose; WaitContainer (lit "c0"); Logs (lit "c0")]).
Proof.
  apply (eval_commands_without_source id_codec id_codec quiet_client
           (lit "c0") [lit "ls"] (Some []) []).
  reflexivity.
Defined.

(** ** What the methods return and raise *)

Lemma bind_ok {A B} (m : M A) (f : A -> M B) (tr tr' : list call) (b : B) :
  bind m f tr = (tr', Ok b) ->
  exists a tr1, m tr = (tr1, Ok a) /\ f a tr1 = (tr', Ok b).
Proof.
  unfold bind. destruct (m tr) as [tr1 [a|e]]; [|discriminate].
  intros H. now exists a, tr1.
Qed.

Lemma eval_commands_returns (b64decode : str -> option bytes)
  (decode : bytes -> option str) (api_client : APIClient) (container : str)
  (commands : list str) (source_base64 : option str) (tr tr' : list call)
  (lines : str) :
  eval_commands b64decode decode api_client container commands source_base64
                tr = (tr', Ok lines) ->
  decode (logs_bytes api_client tr') = Some lines.
Proof.
  unfold eval_commands. intros H.
  do 7 (apply bind_ok in H as (? & ? & _ & H)).
  cbv beta in H.
  match type of H with
  | context [decode ?b] => destruct (decode b) as [s|] eqn:E
  end; [|discriminate].
  simpl in H. injection H as <- <-. exact E.
Qed.

Lemma retrieve_archive_base64_returns (b64encode : bytes -> str)
  (tar_open : bytes -> option (list TarInfo))
  (extractfile : bytes -> TarInfo -> option (option bytes))
  (tar_bytes : list member -> bytes) (api_client : APIClient)
  (container : str) (d : dist_config) (tr tr' : list call)
  (out : option str) :
  retrieve_archive_base64 b64encode tar_open extractfile tar_bytes api_client container
                          d tr = (tr', Ok out) ->
  match get (artifacts d) [] with
  | [] => out = None
  | _ :: _ =>
      exists ms members,
        tar_open (concat (archive_chunks api_client tr')) = Some ms /\
        extract_all extractfile (concat (archive_chunks api_client tr'))
          (filter (selected (get (base_path d) []) (get (artifacts d) [])) ms)
          = Some members /\
        out = Some (b64encode (tar_bytes members))
  end.
Proof.
  unfold retrieve_archive_base64.
  destruct (get (artifacts d) []) as [|a l].
  - now intros [= _ <-].
  - unfold bind, api.
    destruct (raises api_client tr _); [discriminate|].
    unfold ret at 1. cbv beta iota.
    destruct (tar_open _) as [ms|] eqn:E; simpl; [|discriminate].
    destruct (extract_all _ _ _) as [members|] eqn:E'; simpl; [|discriminate].
    intros [= <- <-]. now exists ms, members.
Qed.

Lemma extract_all_fst
  (extractfile : bytes -> TarInfo -> option (option bytes)) (in_obj : bytes)
  (ms : list TarInfo) (members : list member) :
  extract_all extractfile in_obj ms = Some members ->
  map fst members = ms /\
  Forall (fun md => extractfile in_obj (fst md) = Some (snd md)) members.
Proof.
  revert members; induction ms as [|m ms IH]; intros members; simpl.
  - intros [= <-]. split; constructor.
  - destruct (extractfile in_obj m) as [data|] eqn:E; [|discriminate].
    destruct (extract_all extractfile in_obj ms) as [rest|]; [|discriminate].
    intros [= <-]. destruct (IH rest eq_refl) as [H1 H2]. simpl.
    split; [now rewrite H1 | now constructor].
Qed.

(** When [run] returns, its results are the records parsed from the log
    read after the container's exit, and its output is absent without
    patterns and otherwise the encoding of the archive written with the
    selected members of the archive fetched, in their order, each with what
    [extractfile] returned for it. *)
Theorem run_response
  (b64decode : str -> option bytes) (b64encode : bytes -> str)
  (decode : bytes -> option str) (tar_open : bytes -> option (list TarInfo))
  (extractfile : bytes -> TarInfo -> option (option bytes))
  (tar_bytes : list member -> bytes) (api_client : APIClient)
  (request : request) (r : response) :
  snd (run b64decode b64encode decode tar_open extractfile tar_bytes api_client
           request []) = Ok r ->
  let d := get (dist request) {| base_path := None; artifacts := None |} in
  let logged :=
    CreateContainer (lit "zenoscave/tunnel-runner:latest") true ::
    eval_script (container_id api_client) (get (commands request) [])
                (tar_stream_of b64decode (source request)) in
  exists lines,
    decode (logs_bytes api_client logged) = Some lines /\
    results r = parse_output lines /\
    match get (artifacts d) [] with
    | [] => output r = None
    | _ :: _ =>
        let in_obj :=
          concat (archive_chunks api_client
                    (logged ++ retrieve_script (container_id api_client) d)) in
        exists ms members,
          tar_open in_obj = Some ms /\
          map fst members =
            filter (selected (get (base_path d) []) (get (artifacts d) [])) ms /\
          Forall (fun md => extractfile in_obj (fst md) = Some (snd md))
                 members /\
          output r = Some (b64encode (tar_bytes members))
    end.
Proof.
  intros H d logged.
  destruct (run b64decode b64encode decode tar_open extractfile tar_bytes api_client
                request []) as [tr r'] eqn:E.
  simpl in H. subst r'. unfold run in E.
  apply bind_ok in E as (c & tr1 & E1 & E).
  apply bind_ok in E as (lines & tr2 & E2 & E).
  apply bind_ok in E as (out & tr3 & E3 & E).
  apply bind_ok in E as (u & tr4 & _ & E).
  injection E as _ <-.
  pose proof (create_container_id api_client [] c) as Hc.
  rewrite E1 in Hc. specialize (Hc eq_refl). subst c.
  apply (stage_returns _ _ _ _ _ (create_container_follows api_client)) in E1.
  pose proof (stage_returns _ _ _ _ _
                (eval_commands_follows b64decode decode api_client _ _ _) E2)
    as T2.
  apply eval_commands_returns in E2.
  pose proof (stage_returns _ _ _ _ _
                (retrieve_archive_base64_follows b64encode tar_open extractfile tar_bytes
                   api_client _ _) E3) as T3.
  apply retrieve_archive_base64_returns in E3.
  simpl in E1. subst tr1. simpl in T2. subst tr2. fold logged in E2, T3.
  fold d in E3, T3. subst tr3.
  exists lines. split; [assumption | split; [reflexivity|]].
  simpl. destruct (get (artifacts d) []); [exact E3|].
  destruct E3 as (ms & members & Hopen & Hex & Hout).
  apply extract_all_fst in Hex as [Hfst Hdata].
  now exists ms, members.
Qed.

(** The response to the request of the specification's streaming example,
    on a host no call of which raises and whose archive holds
    [build/a.txt]. *)
Lemma run_response_witness :
  exists lines,
    id_codec (lit "[out] hi") = Some lines /\
    [[(lit "out", [lit "hi"])]] = parse_output lines /\
    exists ms members,
      one_member (lit "build/a.txt") [] = Some ms /\
      map fst members = filter (selected (lit "build") [lit "*.txt"]) ms /\
      Forall (fun md => empty_file [] (fst md) = Some (snd md)) members /\
      Some (lit "build/a.txt" ++ LF :: lit "<end>") =
        Some (id_encode (tar_names members)).
Proof.
  exact (run_response id_codec id_encode id_codec
           (one_member (lit "build/a.txt")) empty_file tar_names quiet_client
           echo_request
           {| results := [[(lit "out", [lit "hi"])]];
              output := Some (lit "build/a.txt" ++ LF :: lit "<end>") |}
           eq_refl).
Defined.





(** A source that is there and cannot be decoded: the container is created,
    [b64decode] raises before any other call, and [run] raises its error;
    the container is neither started nor removed. *)
Theorem run_source_not_decodable
  (b64decode : str -> option bytes) (b64encode : bytes -> str)
  (decode : bytes -> option str) (tar_open : bytes -> option (list TarInfo))
  (extractfile : bytes -> TarInfo -> option (option bytes))
  (tar_bytes : list member -> bytes) (api_client : APIClient)
  (request : request) :
  truthy (source request) = true ->
  b64decode (get (source request) []) = None ->
  raises api_client []
    (CreateContainer (lit "zenoscave/tunnel-runner:latest") true) = false ->
  run b64decode b64encode decode tar_open extractfile tar_bytes api_client request [] =
    ([CreateContainer (lit "zenoscave/tunnel-runner:latest") true],
     Raise Base64Error).
Proof.
  intros Ht Hd Hc. unfold run, create_container, bind at 1 2, api.
  rewrite Hc. cbv beta iota. unfold ret at 1. cbv beta iota.
  unfold bind at 1.
  now rewrite (eval_commands_undecodable b64decode decode api_client _ _ _ _
                 Ht Hd).
Qed.

(** The request of the streaming example with a decoder that rejects its
    source. *)
Lemma run_source_not_decodable_witness :
  run no_codec id_encode id_codec (one_member (lit "build/a.txt")) empty_file tar_names
      quiet_client echo_request [] =
    ([CreateContainer (lit "zenoscave/tunnel-runner:latest") true],
     Raise Base64Error).
Proof.
  apply (run_source_not_decodable no_codec id_encode id_codec
           (one_member (lit "build/a.txt")) empty_file tar_names quiet_client
           echo_request); reflexivity.
Defined.

(** ** The errors of the client come out as they are *)

Lemma reports_ret {A} (api_client : APIClient) (a : A) :
  reports api_client (ret a).
Proof. intros tr c H. discriminate H. Qed.

Lemma reports_lift {A} (api_client : APIClient) (e : exn) (o : option A) :
  (forall c, e <> APIError c) -> reports api_client (lift e o).
Proof.
  intros He tr c H. destruct o; simpl in H; [discriminate H|].
  injection H as H. now apply He in H.
Qed.

Lemma reports_api (api_client : APIClient) (c : call) :
  reports api_client (api api_client c).
Proof.
  intros tr c' H. unfold api in *.
  destruct (raises api_client tr c) eqn:E; simpl in *; [|discriminate H].
  injection H as <-. exact E.
Qed.

Lemma reports_bind {A B} (api_client : APIClient) (m : M A) (f : A -> M B) :
  reports api_client m -> (forall a, reports api_client (f a)) ->
  reports api_client (bind m f).
Proof.
  intros Hm Hf tr c. unfold bind. specialize (Hm tr c).
  destruct (m tr) as [tr1 [a|e]]; [apply Hf|].
  simpl in *. intros H. apply Hm. injection H as ->. reflexivity.
Qed.

Lemma reports_read {A} (api_client : APIClient) (g : list call -> M A) :
  (forall t, reports api_client (g t)) ->
  reports api_client (fun tr => g tr tr).
Proof. intros H tr. apply (H tr tr). Qed.

Lemma reports_for_each {A} (api_client : APIClient) (body : A -> M unit)
  (l : list A) :
  (forall a, reports api_client (body a)) ->
  reports api_client (for_each body l).
Proof.
  intros H. induction l as [|a l IH]; simpl.
  - apply reports_ret.
  - apply reports_bind; [apply H | intros _; apply IH].
Qed.

Lemma eval_commands_reports (b64decode : str -> option bytes)
  (decode : bytes -> option str) (api_client : APIClient) (container : str)
  (commands : list str) (source_base64 : option str) :
  reports api_client
    (eval_commands b64decode decode api_client container commands
                   source_base64).
Proof.
  unfold eval_commands.
  apply reports_bind.
  - destruct (truthy source_base64); [|apply reports_ret].
    apply reports_bind; [apply reports_lift; discriminate|].
    intros a. apply reports_api.
  - intros _.
    repeat (apply reports_bind;
            [first [apply reports_api
                   |apply reports_for_each; intros a; apply reports_api]
            |intros _]).
    apply reports_read. intros t. apply reports_lift. discriminate.
Qed.

Lemma retrieve_archive_base64_reports (b64encode : bytes -> str)
  (tar_open : bytes -> option (list TarInfo))
  (extractfile : bytes -> TarInfo -> option (option bytes))
  (tar_bytes : list member -> bytes) (api_client : APIClient)
  (container : str) (d : dist_config) :
  reports api_client
    (retrieve_archive_base64 b64encode tar_open extractfile tar_bytes api_client
                             container d).
Proof.
  unfold retrieve_archive_base64.
  destruct (get (artifacts d) []); [apply reports_ret|].
  apply reports_bind; [apply reports_api | intros _].
  apply reports_bind;
    [apply (reports_read api_client
              (fun t => ret (archive_chunks api_client t)));
     intros t; apply reports_ret | intros strm].
  apply reports_bind; [apply reports_lift; discriminate | intros ms].
  apply reports_bind; [apply reports_lift; discriminate|].
  intros members. apply reports_ret.
Qed.

(** [run] hides no error of the Docker client and makes none up: when it
    raises the error of a call, the client raised on that very call, and the
    calls made are those that returned before it. *)
Theorem run_reports_the_failing_call
  (b64decode : str -> option bytes) (b64encode : bytes -> str)
  (decode : bytes -> option str) (tar_open : bytes -> option (list TarInfo))
  (extractfile : bytes -> TarInfo -> option (option bytes))
  (tar_bytes : list member -> bytes) (api_client : APIClient)
  (request : request) (c : call) :
  snd (run b64decode b64encode decode tar_open extractfile tar_bytes api_client
           request []) = Raise (APIError c) ->
  raises api_client
    (fst (run b64decode b64encode decode tar_open extractfile tar_bytes api_client
              request [])) c = true.
Proof.
  revert c. generalize (@nil call).
  change (reports api_client
            (run b64decode b64encode decode tar_open extractfile tar_bytes api_client
                 request)).
  unfold run, create_container.
  apply reports_bind.
  - apply reports_bind; [apply reports_api | intros _; apply reports_ret].
  - intros container.
    apply reports_bind; [apply eval_commands_reports | intros lines].
    apply reports_bind; [apply retrieve_archive_base64_reports | intros out].
    apply reports_bind; [apply reports_api | intros _; apply reports_ret].
Qed.

(** On the host whose container does not start, the error [run] raises is
    that of the start. *)
Lemma run_reports_the_failing_call_witness :
  raises stuck_client
    (fst (run id_codec id_encode id_codec (one_member (lit "build/a.txt")) empty_file
              tar_names stuck_client echo_request []))
    (StartContainer (lit "c0")) = true.
Proof.
  apply (run_reports_the_failing_call id_codec id_encode id_codec
           (one_member (lit "build/a.txt")) empty_file tar_names stuck_client
           echo_request (StartContainer (lit "c0"))).
  reflexivity.
Defined.

(** ** The pattern of one star *)

Lemma literal_app (p q : str) : literal (p ++ q) = literal p && literal q.
Proof. apply forallb_app. Qed.

(** With the one pattern [*]: under a base path (of ordinary characters, not
    ended by a slash) the members selected are those whose name begins with
    the base path and a slash, at any depth, and not the member named by the
    base path itself; with an empty base path, every member is selected. *)
Theorem selected_by_one_star (base_path : str) (m : TarInfo) :
  (literal base_path = true -> base_path <> [] ->
   endswith ["/"] base_path = false ->
   (selected base_path [lit "*"] m = true <->
    exists rest, name m = base_path ++ "/" :: rest)) /\
  selected [] [lit "*"] m = true.
Proof.
  split.
  - intros Hlit Hne Hend. unfold selected. cbn [existsb].
    rewrite orb_false_r. unfold path_join.
    change (startswith ["/"] (lit "*")) with false. cbv iota.
    rewrite Hend, orb_false_r.
    destruct (str_eqb base_path []) eqn:E;
      [apply str_eqb_eq in E; contradiction|].
    replace (base_path ++ "/" :: lit "*")
      with ((base_path ++ ["/"]) ++ "*" :: [])
      by now rewrite <- app_assoc.
    rewrite fnmatch_literal_star;
      [|rewrite literal_app, Hlit; reflexivity | reflexivity].
    split; intros [x Hx]; exists x; rewrite Hx;
      now rewrite <- app_assoc, ?app_nil_r.
  - unfold selected. cbn [existsb]. rewrite orb_false_r.
    change (path_join [] (lit "*")) with ([] ++ "*" :: @nil ascii).
    apply fnmatch_literal_star; [reflexivity | reflexivity|].
    exists (name m). now rewrite app_nil_r.
Qed.

(** Under [build], the star selects a file two levels down. *)
Lemma selected_by_one_star_witness :
  selected (lit "build") [lit "*"] (file "build/sub/a.txt") = true.
Proof.
  apply (proj1 (selected_by_one_star (lit "build") (file "build/sub/a.txt")));
    [reflexivity | discriminate | reflexivity|].
  now exists (lit "sub/a.txt").
Defined.

(** ** The one sequence of calls *)

Lemma stage_prefix {A} (m : M A) (script tr rest : list call) :
  follows m script ->
  match snd (m tr) with
  | Ok _ => fst (m tr) = tr ++ script
  | Raise _ => prefix (fst (m tr)) (tr ++ script ++ rest)
  end.
Proof.
  intros Hm. destruct (Hm tr) as (d & E & P & O).
  destruct (snd (m tr)) as [a|e].
  - now rewrite E, (O a eq_refl).
  - rewrite E. apply prefix_app. now apply prefix_app_r.
Qed.

(** On every path, with or without an error, the calls of [run] are the
    first calls of one sequence: the creation, the unpacking of a source, the
    start, the attachment, the writes, the closing, the wait, the log, the
    fetching of the archive when there are patterns, and the removal.  No
    call is made out of this order and none twice. *)
Theorem run_calls_begin_one_sequence
  (b64decode : str -> option bytes) (b64encode : bytes -> str)
  (decode : bytes -> option str) (tar_open : bytes -> option (list TarInfo))
  (extractfile : bytes -> TarInfo -> option (option bytes))
  (tar_bytes : list member -> bytes) (api_client : APIClient)
  (request : request) :
  prefix
    (fst (run b64decode b64encode decode tar_open extractfile tar_bytes api_client
              request []))
    (CreateContainer (lit "zenoscave/tunnel-runner:latest") true ::
     eval_script (container_id api_client) (get (commands request) [])
                 (tar_stream_of b64decode (source request)) ++
     retrieve_script (container_id api_client)
       (get (dist request) {| base_path := None; artifacts := None |}) ++
     [RemoveContainer (container_id api_client)]).
Proof.
  unfold run, bind.
  set (d := get (dist request) {| base_path := None; artifacts := None |}).
  set (s2 := eval_script (container_id api_client)
               (get (commands request) [])
               (tar_stream_of b64decode (source request))).
  set (s3 := retrieve_script (container_id api_client) d).
  set (s4 := [RemoveContainer (container_id api_client)]).
  pose proof (stage_prefix _ _ [] (s2 ++ s3 ++ s4)
                (create_container_follows api_client)) as H1.
  pose proof (create_container_id api_client []) as Hid.
  destruct (create_container api_client []) as [tr1 [c|e]]; simpl in *;
    [|exact H1].
  rewrite (Hid c eq_refl). clear Hid. subst tr1.
  pose proof (stage_prefix _ _
                [CreateContainer (lit "zenoscave/tunnel-runner:latest") true]
                (s3 ++ s4)
                (eval_commands_follows b64decode decode api_client
                   (container_id api_client) (get (commands request) [])
                   (source request))) as H2.
  fold s2 in H2.
  destruct (eval_commands b64decode decode api_client
              (container_id api_client) (get (commands request) [])
              (source request) _) as [tr2 [lines|e]]; simpl in *;
    [|exact H2].
  subst tr2.
  pose proof (stage_prefix _ _
                (CreateContainer (lit "zenoscave/tunnel-runner:latest") true
                 :: s2) s4
                (retrieve_archive_base64_follows b64encode tar_open extractfile tar_bytes
                   api_client (container_id api_client) d)) as H3.
  fold s3 in H3.
  destruct (retrieve_archive_base64 b64encode tar_open extractfile tar_bytes api_client
              (container_id api_client) d _) as [tr3 [out|e]]; simpl in *;
    [|exact H3].
  subst tr3. unfold api.
  destruct (raises api_client _ (RemoveContainer (container_id api_client)));
    simpl.
  - exists s4. simpl. now rewrite <- app_assoc.
  - exists []. fold s4. simpl. now rewrite app_nil_r, <- app_assoc.
Qed.
